(** * FSM: a finite-state-machine engine and its single-symbol rule compiler

    Shallow embedding of [src/fsm.hpp]:
    - [TextFSM]: the rule matcher [TextFSM::checkSymbol] (the predicate that a
      textual rule compiles to), over the NUL-terminated pattern buffer;
    - [Engine]: the template class [FSM<State, Condition>] (edges, global
      edges, [getEdge], [process], the registration calls). *)

From stdpp Require Import base gmap strings list.
From Stdlib Require Import ZArith Ascii String.

Local Open Scope char_scope.

#[local] Set Warnings "-clear-no-such-hyp".

(** ** The rule matcher *)

Module TextFSM.

(** [constexpr static char alphabet[]]: lowercase, uppercase, digits. *)
Definition alphabet : string :=
  "abcdefghijklmnopqrstuvwxyzABCDEFGHIJKLMNOPQRSTUVWXYZ0123456789"%string.

(** [char] is modelled by [ascii].  The only ordered comparisons of the source
    are against ASCII constants ('a', 'z', 'A', 'Z', '0', '9'), on which a
    signed and an unsigned [char] agree: bytes above 127 fail every test. *)
Definition isLetter (sym : ascii) : bool :=
  (("a" <=? sym) && (sym <=? "z")) || (("A" <=? sym) && (sym <=? "Z")).

Definition isNumber (sym : ascii) : bool :=
  ("0" <=? sym) && (sym <=? "9").

Definition isSpace (sym : ascii) : bool :=
  (sym =? " ") || (sym =? "009").

(** A [const char*] points to a buffer: the characters of the literal followed
    by the terminating NUL.  [strlen] counts up to the first NUL. *)
Fixpoint strlen (buf : string) : nat :=
  match buf with
  | EmptyString => 0
  | String c rest => if c =? zero then 0 else S (strlen rest)
  end.

(** [buf[i]]: defined on the characters of the string and on its terminator,
    [None] (a read past the end of the string) beyond it. *)
Definition char_at (buf : string) (i : nat) : option ascii :=
  if (i <? strlen buf)%nat then String.get i buf
  else if (i =? strlen buf)%nat then Some zero
  else None.

(** What a call can end with: the returned boolean, a read outside the buffer,
    or an exhausted iteration budget (of the model only). *)
Inductive outcome : Type :=
  | Return (b : bool)
  | OutOfBounds
  | OutOfFuel.

(** The three ways out of the inner loop over the alphabet: [return direct],
    falling out of the loop ([break] or end of alphabet), or a read of
    [rule[idx]] outside the buffer. *)
Inductive range_exit : Type :=
  | RangeReturn
  | RangeLeave
  | RangeFault.

(** The loop [for (alph_idx = 0; alph_idx < alph_length; alph_idx++)] of the
    '-' branch, on the remaining characters [alph] of the alphabet;
    [upper] is the content of [rule[idx]], read in the third test. *)
Fixpoint range_loop (alph : list ascii) (inside : bool)
    (previous_symbol sym : ascii) (upper : option ascii) : range_exit :=
  match alph with
  | [] => RangeLeave
  | a :: rest =>
      let inside := if a =? previous_symbol then true else inside in
      if inside && (sym =? a) then RangeReturn
      else match upper with
           | None => RangeFault
           | Some u =>
               if a =? u then RangeLeave
               else range_loop rest inside previous_symbol sym upper
           end
  end.

(** The [switch (rule[++idx])] of the '\\' branch: [true] when the selected
    case executes [return direct]. *)
Definition escape_switch (esc sym : ascii) : bool :=
  if esc =? "\" then sym =? "\"
  else if esc =? "^" then sym =? "^"
  else if esc =? "-" then sym =? "-"
  else if esc =? "." then sym =? "."
  else if esc =? "w" then isLetter sym
  else if esc =? "d" then isNumber sym
  else if esc =? "s" then isSpace sym
  else if esc =? "n" then sym =? "010"
  else if esc =? "t" then sym =? "009"
  else if esc =? "0" then sym =? zero
  else false.

(** The local variables of the outer loop. *)
Record cursor : Type := Cursor {
  idx : nat;
  direct : bool;
  previous_symbol : ascii
}.

Inductive step : Type :=
  | Next (st : cursor)
  | Stop (o : outcome).

Definition fetch (rule : string) (i : nat) (k : ascii -> step) : step :=
  match char_at rule i with
  | Some c => k c
  | None => Stop OutOfBounds
  end.

Notation "'read' c := rule ⟦ i ⟧ ; k" := (fetch rule i (fun c => k))
  (at level 10, c name, rule at level 9, k at level 200,
   format "'[v' 'read'  c  :=  rule ⟦ i ⟧ ; '/' k ']'").

(** One iteration of [for (idx = 0; idx < rule_length; idx++)], including the
    trailing [previous_symbol = rule[idx]] and the increment. *)
Definition iteration (rule : string) (sym : ascii) (st : cursor) : step :=
  let i := idx st in
  read c := rule⟦i⟧;
  if c =? "^" then
    Next (Cursor (S i) false c)
  else if c =? "." then
    Stop (Return (direct st))
  else if c =? "-" then
    let i := S i in
    match range_loop (list_ascii_of_string alphabet) false
            (previous_symbol st) sym (char_at rule i) with
    | RangeReturn => Stop (Return (direct st))
    | RangeFault => Stop OutOfBounds
    | RangeLeave =>
        read p := rule⟦i⟧;
        Next (Cursor (S i) (direct st) p)
    end
  else if c =? "\" then
    let i := S i in
    read e := rule⟦i⟧;
    if escape_switch e sym then Stop (Return (direct st))
    else Next (Cursor (S i) (direct st) e)
  else if c =? sym then
    Stop (Return (direct st))
  else
    Next (Cursor (S i) (direct st) c).

(** The outer loop; every iteration advances [idx], so [rule_length]
    iterations always suffice (see [scan_returns]). *)
Fixpoint scan (fuel : nat) (rule : string) (rule_length : nat) (sym : ascii)
    (st : cursor) : outcome :=
  if (idx st <? rule_length)%nat then
    match fuel with
    | O => OutOfFuel
    | S fuel' =>
        match iteration rule sym st with
        | Stop o => o
        | Next st' => scan fuel' rule rule_length sym st'
        end
    end
  else Return (negb (direct st)).

Definition checkSymbol (rule : string) (sym : ascii) : outcome :=
  let rule_length := strlen rule in
  scan rule_length rule rule_length sym (Cursor 0 true zero).

(** *** Vocabulary of the properties *)

Definition alphabet_chars : list ascii := list_ascii_of_string alphabet.

(** The part of [alph] from the first occurrence of [x] on (empty when [x]
    does not occur). *)
Fixpoint from_first (x : ascii) (alph : list ascii) : list ascii :=
  match alph with
  | [] => []
  | a :: rest => if a =? x then a :: rest else from_first x rest
  end.

(** The values of the loop variables at the loop test, during the call
    [checkSymbol rule sym]. *)
Inductive loop_head (rule : string) (sym : ascii) : cursor -> Prop :=
  | head_entry : loop_head rule sym (Cursor 0 true zero)
  | head_iterate st st' :
      loop_head rule sym st ->
      idx st < strlen rule ->
      iteration rule sym st = Next st' ->
      loop_head rule sym st'.

(** The part of [alph] up to and including the first occurrence of [x] (all
    of [alph] when [x] does not occur). *)
Fixpoint up_to (x : ascii) (alph : list ascii) : list ascii :=
  match alph with
  | [] => []
  | a :: rest => if a =? x then [a] else a :: up_to x rest
  end.

(** The characters of [alph] that the inner loop of the '-' branch tests
    while [inside] holds: from the first [lower] to the first [upper]. *)
Definition between (lower upper : ascii) (alph : list ascii) : list ascii :=
  from_first lower (up_to upper alph).

(** The characters with a branch of their own in the outer loop. *)
Definition special (c : ascii) : bool :=
  (c =? "^") || (c =? ".") || (c =? "-") || (c =? "\").

(** A pattern without terminator and without special characters. *)
Fixpoint literal (rule : string) : bool :=
  match rule with
  | EmptyString => true
  | String c rest => negb (c =? zero) && negb (special c) && literal rest
  end.

Definition negate (o : outcome) : outcome :=
  match o with
  | Return b => Return (negb b)
  | _ => o
  end.

(** The outer loop read as a recursion over the pattern instead of over
    [idx]: the segment at the head of [rule] is tested and the recursion goes
    on behind it, with the values of [direct] and [previous_symbol] that the
    loop holds there.  [checkSymbol_matcher] shows that the loop computes
    this function. *)
Fixpoint matcher (direct : bool) (previous_symbol : ascii) (rule : string)
    (sym : ascii) {struct rule} : bool :=
  match rule with
  | EmptyString => negb direct
  | String c rest =>
      if c =? zero then negb direct
      else if c =? "^" then matcher false c rest sym
      else if c =? "." then direct
      else if c =? "-" then
        match rest with
        | EmptyString =>
            if bool_decide (sym ∈ between previous_symbol zero alphabet_chars)
            then direct else negb direct
        | String u rest' =>
            if bool_decide (sym ∈ between previous_symbol u alphabet_chars)
            then direct
            else if u =? zero then negb direct
            else matcher direct u rest' sym
        end
      else if c =? "\" then
        match rest with
        | EmptyString => negb direct
        | String e rest' =>
            if escape_switch e sym then direct
            else if e =? zero then negb direct
            else matcher direct e rest' sym
        end
      else if c =? sym then direct
      else matcher direct c rest sym
  end.

End TextFSM.

(** ** The transition engine *)

Module Engine.

(** [enum EdgeFlag]; flag sets are combined with the integer operators. *)
Definition E_NONE : Z := 0.
Definition E_SILENT : Z := Z.shiftl 1 0.
Definition E_GLOBAL : Z := Z.shiftl 1 1.

Section Machine.

Context {State : Type} `{Countable State} {Condition : Type}.

(** [struct Edge].  The member [simple_rule] is never written nor read and is
    left out. *)
Record Edge : Type := mkEdge {
  source : State;
  destination : State;
  rule : Condition -> bool;
  label : string;
  flags : Z
}.

(** The loop of the [Edge] constructors: the label with every backslash
    doubled. *)
Fixpoint escape_label (edge_label : string) : string :=
  match edge_label with
  | EmptyString => EmptyString
  | String sym rest =>
      if sym =? "\" then String sym (String sym (escape_label rest))
      else String sym (escape_label rest)
  end.

Definition Edge_new (source destination : State) (rule : Condition -> bool)
    (edge_label : string) (flags : Z) : Edge :=
  mkEdge source destination rule (escape_label edge_label) flags.

(** The data members of [class FSM]; [std::unordered_set] as [gset],
    [std::unordered_map] as [gmap], [std::vector] as [list]. *)
Record FSM : Type := mkFSM {
  default_state : State;
  current_state : State;
  previous_state : State;
  possible_states : gset State;
  edges : gmap State (list Edge);
  global_edges : list Edge;
  state_names : gmap State string
}.

Definition set_current_state (s : State) (m : FSM) : FSM :=
  mkFSM (default_state m) s (previous_state m) (possible_states m)
        (edges m) (global_edges m) (state_names m).

Definition set_previous_state (s : State) (m : FSM) : FSM :=
  mkFSM (default_state m) (current_state m) s (possible_states m)
        (edges m) (global_edges m) (state_names m).

Definition set_possible_states (ps : gset State) (m : FSM) : FSM :=
  mkFSM (default_state m) (current_state m) (previous_state m) ps
        (edges m) (global_edges m) (state_names m).

Definition set_edges (es : gmap State (list Edge)) (m : FSM) : FSM :=
  mkFSM (default_state m) (current_state m) (previous_state m)
        (possible_states m) es (global_edges m) (state_names m).

Definition set_global_edges (g : list Edge) (m : FSM) : FSM :=
  mkFSM (default_state m) (current_state m) (previous_state m)
        (possible_states m) (edges m) g (state_names m).

Definition set_state_names (n : gmap State string) (m : FSM) : FSM :=
  mkFSM (default_state m) (current_state m) (previous_state m)
        (possible_states m) (edges m) (global_edges m) n.

(** [edges[key]]: [operator[]] of [std::unordered_map] returns the mapped
    vector and first inserts an empty one when the key is absent. *)
Definition edges_subscript (key : State) (m : FSM) : list Edge * FSM :=
  match edges m !! key with
  | Some v => (v, m)
  | None => ([], set_edges (<[key := []]> (edges m)) m)
  end.

(** [for (Edge edge : v) if (edge.rule(cond)) { edge_ret = edge; return true; }] *)
Fixpoint first_accepting (cond : Condition) (v : list Edge) : option Edge :=
  match v with
  | [] => None
  | edge :: rest =>
      if rule edge cond then Some edge else first_accepting cond rest
  end.

(** [getEdge]: [Some edge] stands for "[edge_ret] assigned, [true] returned",
    [None] for "[false] returned" ([edge_ret] is then never read by the
    caller). *)
Definition getEdge (cond : Condition) (m : FSM) : option Edge * FSM :=
  let '(local, m) := edges_subscript (current_state m) m in
  match first_accepting cond local with
  | Some edge => (Some edge, m)
  | None => (first_accepting cond (global_edges m), m)
  end.

Definition changeState (destination : State) (m : FSM) : FSM :=
  set_current_state destination m.

(** [FSM(State default_state)] *)
Definition new (default_state : State) : FSM :=
  mkFSM default_state default_state default_state
        ({[default_state]} ∪ ∅) ∅ [] ∅.

(** [FSM(State default_state, State start_state)] *)
Definition new_at (default_state start_state : State) : FSM :=
  mkFSM default_state start_state start_state
        ({[start_state]} ∪ ({[default_state]} ∪ ∅)) ∅ [] ∅.

(** [createEdge] (the body is the same for both overloads; the rule is the
    predicate stored in the edge). *)
Definition createEdge (source destination : State) (rule : Condition -> bool)
    (label : string) (flags : Z) (m : FSM) : FSM :=
  let m :=
    match edges m !! source with
    | None => set_edges (<[source := []]> (edges m)) m
    | Some _ => m
    end in
  let '(v, m) := edges_subscript source m in
  let m :=
    set_edges
      (<[source := v ++ [Edge_new source destination rule label flags]]>
         (edges m)) m in
  let m := set_possible_states ({[source]} ∪ possible_states m) m in
  set_possible_states ({[destination]} ∪ possible_states m) m.

(** [createGlobalEdge] *)
Definition createGlobalEdge (destination : State) (rule : Condition -> bool)
    (label : string) (flags : Z) (m : FSM) : FSM :=
  let m :=
    set_global_edges
      (global_edges m ++
         [Edge_new (default_state m) destination rule label
            (Z.lor flags E_GLOBAL)]) m in
  set_possible_states ({[destination]} ∪ possible_states m) m.

Definition setStateName (state : State) (state_name : string) (m : FSM) : FSM :=
  set_state_names (<[state := state_name]> (state_names m)) m.

(** [!(edge.flags & E_SILENT == E_SILENT)]: [==] binds tighter than [&], so
    the operand of [!] is [flags & (int)(E_SILENT == E_SILENT)]. *)
Definition passed (edge : Edge) : bool :=
  Z.eqb (Z.land (flags edge) (Z.b2z (Z.eqb E_SILENT E_SILENT))) 0.

(** [bool process(Condition cond)] *)
Definition process (cond : Condition) (m : FSM) : bool * FSM :=
  let passed_edge := false in
  let m := set_previous_state (current_state m) m in
  match getEdge cond m with
  | (Some appropriate_edge, m) =>
      let m := changeState (destination appropriate_edge) m in
      let passed_edge := passed_edge || passed appropriate_edge in
      if decide (current_state m = default_state m) then
        match getEdge cond m with
        | (Some appropriate_edge, m) =>
            let m := changeState (destination appropriate_edge) m in
            let passed_edge := passed_edge || passed appropriate_edge in
            (passed_edge, m)
        | (None, m) => (passed_edge, m)
        end
      else (passed_edge, m)
  | (None, m) => (passed_edge, m)
  end.

Definition previousState (m : FSM) : State := previous_state m.

Definition currentState (m : FSM) : State := current_state m.

(** [void process(Condition cond, State& ended_state, bool& state_changed)]:
    the two reference parameters are returned next to the machine. *)
Definition process_into (cond : Condition) (m : FSM) : State * bool * FSM :=
  let '(state_changed, m) := process cond m in
  let ended_state := previousState m in
  (ended_state, state_changed, m).

Definition stateName (state : State) (m : FSM) : string :=
  match state_names m !! state with
  | Some n => n
  | None => EmptyString
  end.

(** *** Vocabulary of the properties *)

(** The edge list registered under a state: the mapped vector, empty when the
    map has no entry. *)
Definition local_edges (m : FSM) (s : State) : list Edge :=
  default [] (edges m !! s).

(** The map after [edges[key]] has been evaluated. *)
Definition with_entry (key : State) (es : gmap State (list Edge)) :
    gmap State (list Edge) :=
  match es !! key with
  | Some _ => es
  | None => <[key := []]> es
  end.

(** The edge that the two loops of [getEdge] select when the current state
    is [s]. *)
Definition select_at (cond : Condition) (m : FSM) (s : State) : option Edge :=
  match first_accepting cond (local_edges m s) with
  | Some edge => Some edge
  | None => first_accepting cond (global_edges m)
  end.

(** Two machines with the same graph: same default state, possible states,
    global edges, state names, and the same edge list under every state. *)
Definition same_graph (m m' : FSM) : Prop :=
  default_state m' = default_state m ∧
  possible_states m' = possible_states m ∧
  global_edges m' = global_edges m ∧
  state_names m' = state_names m ∧
  ∀ s, local_edges m' s = local_edges m s.

(** Every endpoint of a stored edge, and the default state, is a possible
    state. *)
Definition endpoints_possible (m : FSM) : Prop :=
  default_state m ∈ possible_states m ∧
  (∀ s v edge, edges m !! s = Some v -> edge ∈ v ->
     source edge ∈ possible_states m ∧
     destination edge ∈ possible_states m) ∧
  (∀ edge, edge ∈ global_edges m ->
     source edge ∈ possible_states m ∧
     destination edge ∈ possible_states m).

(** Membership of [E_SILENT] in a flag set. *)
Definition silent (edge : Edge) : bool :=
  negb (Z.eqb (Z.land (flags edge) E_SILENT) 0).

Definition accepts (cond : Condition) (edge : Edge) : Prop :=
  rule edge cond = true.

Definition rejects (cond : Condition) (edge : Edge) : Prop :=
  rule edge cond = false.

(** [first_in cond v edge]: [edge] is the first element of [v], in order,
    whose predicate accepts [cond]. *)
Definition first_in (cond : Condition) (v : list Edge) (edge : Edge) : Prop :=
  ∃ before after,
    v = before ++ edge :: after ∧ Forall (rejects cond) before ∧
    accepts cond edge.

(** The edges whose destination [process cond] hands to [changeState], in
    order: the one found at the current state and, when it leads to the
    default state, the one found there. *)
Definition taken (cond : Condition) (m : FSM) : list Edge :=
  match getEdge cond m with
  | (None, _) => []
  | (Some first, m) =>
      let m := changeState (destination first) m in
      first ::
        (if decide (current_state m = default_state m) then
           match getEdge cond m with
           | (Some second, _) => [second]
           | (None, _) => []
           end
         else [])
  end.

(** The calls of the public interface that act on the machine. *)
Inductive call : Type :=
  | CreateEdge (source destination : State) (rule : Condition -> bool)
      (label : string) (flags : Z)
  | CreateGlobalEdge (destination : State) (rule : Condition -> bool)
      (label : string) (flags : Z)
  | SetStateName (state : State) (state_name : string)
  | Process (cond : Condition).

Definition perform (m : FSM) (c : call) : FSM :=
  match c with
  | CreateEdge s d r l f => createEdge s d r l f m
  | CreateGlobalEdge d r l f => createGlobalEdge d r l f m
  | SetStateName s n => setStateName s n m
  | Process cond => (process cond m).2
  end.

Definition run (calls : list call) (m : FSM) : FSM :=
  foldl perform m calls.

(** The edges that the [createEdge] calls of a sequence register under
    [s], and those its [createGlobalEdge] calls register, oldest first. *)
Fixpoint registered_local (calls : list call) (s : State) : list Edge :=
  match calls with
  | [] => []
  | CreateEdge src d r l f :: rest =>
      if decide (src = s) then Edge_new src d r l f :: registered_local rest s
      else registered_local rest s
  | _ :: rest => registered_local rest s
  end.

Fixpoint registered_global (calls : list call) (default : State) : list Edge :=
  match calls with
  | [] => []
  | CreateGlobalEdge d r l f :: rest =>
      Edge_new default d r l (Z.lor f E_GLOBAL) :: registered_global rest default
  | _ :: rest => registered_global rest default
  end.

(** The states named by a call as source or destination of an edge. *)
Definition mentioned (c : call) : list State :=
  match c with
  | CreateEdge s d _ _ _ => [s; d]
  | CreateGlobalEdge d _ _ _ => [d]
  | _ => []
  end.

(** The calls that build the machine, as opposed to driving it. *)
Definition registers (c : call) : bool :=
  match c with
  | Process _ => false
  | _ => true
  end.

(** The name that the [setStateName] calls of a sequence leave under [s]:
    the one of the last such call, if any. *)
Fixpoint last_name (calls : list call) (s : State) : option string :=
  match calls with
  | [] => None
  | SetStateName state state_name :: rest =>
      match last_name rest s with
      | Some n => Some n
      | None => if decide (state = s) then Some state_name else None
      end
  | _ :: rest => last_name rest s
  end.

(** Membership of [E_GLOBAL] in a flag set. *)
Definition global (edge : Edge) : bool :=
  negb (Z.eqb (Z.land (flags edge) E_GLOBAL) 0).

End Machine.

Arguments Edge : clear implicits.
Arguments FSM State {_ _} Condition.
Arguments call : clear implicits.
Arguments new {_ _ _} Condition default_state.
Arguments new_at {_ _ _} Condition default_state start_state.

(** *** A small machine over characters

    States are numbers, 0 is the default state and 1 the start state.  Under
    state 1 an 'x' leads silently to the default state and a 'y' silently to
    state 3; under the default state an 'x' leads to state 2; from anywhere a
    'y' leads to state 2 and an 'x' to state 3. *)
Definition sample_calls : list (call nat ascii) :=
  [ CreateEdge 1 0 (Ascii.eqb "x") "x" E_SILENT;
    CreateEdge 0 2 (Ascii.eqb "x") "x" E_NONE;
    CreateEdge 1 3 (Ascii.eqb "y") "y" E_SILENT;
    CreateGlobalEdge 2 (Ascii.eqb "y") "y" E_NONE;
    CreateGlobalEdge 3 (Ascii.eqb "x") "x" E_NONE ].

Definition sample : FSM nat ascii := run sample_calls (new_at ascii 0 1).

End Engine.

(** ** [class TextFSM]: edges given by a textual rule *)

Module TextMachine.

Section Wrappers.

Context {State : Type} `{Countable State}.

(** The characters that [std::string(rule)] copies from the buffer: those
    before the terminator. *)
Fixpoint c_str (buf : string) : string :=
  match buf with
  | EmptyString => EmptyString
  | String c rest => if c =? zero then EmptyString else String c (c_str rest)
  end.

(** The lambda [[rule](char sym) { return checkSymbol(rule, sym); }].  Every
    call of [checkSymbol] returns ([RuleProofs.scan_returns]), so the last
    case only makes the function total. *)
Definition rule_function (rule : string) (sym : ascii) : bool :=
  match TextFSM.checkSymbol rule sym with
  | TextFSM.Return b => b
  | _ => false
  end.

(** [TextFSM::createEdge(source, destination, const char* rule, flags)] *)
Definition createEdge (source destination : State) (rule : string)
    (flags : Z) (m : Engine.FSM State ascii) : Engine.FSM State ascii :=
  Engine.createEdge source destination (rule_function rule) (c_str rule)
    flags m.

(** [TextFSM::createGlobalEdge(destination, const char* rule, flags)] *)
Definition createGlobalEdge (destination : State) (rule : string)
    (flags : Z) (m : Engine.FSM State ascii) : Engine.FSM State ascii :=
  Engine.createGlobalEdge destination (rule_function rule) (c_str rule)
    flags m.

End Wrappers.

End TextMachine.

(** ** Properties of the rule matcher *)

Module RuleProofs.
Import TextFSM.

Lemma eqb_true (a b : ascii) : (a =? b) = true -> a = b.
Proof. apply Ascii.eqb_eq. Qed.

Lemma eqb_false (a b : ascii) : (a =? b) = false -> a <> b.
Proof. apply Ascii.eqb_neq. Qed.

(** *** The pattern buffer *)

Lemma char_at_terminator rule : char_at rule (strlen rule) = Some zero.
Proof.
  unfold char_at. rewrite Nat.ltb_irrefl, Nat.eqb_refl. reflexivity.
Qed.

Lemma get_below_strlen rule i :
  i < strlen rule -> ∃ c, String.get i rule = Some c ∧ c <> zero.
Proof.
  revert i. induction rule as [|a rule IH]; simpl; intros i Hi; [lia|].
  destruct (a =? zero) eqn:E; [lia|]. apply eqb_false in E.
  destruct i as [|i]; [eauto|]. apply IH. lia.
Qed.

Lemma char_at_inside rule i :
  i < strlen rule -> ∃ c, char_at rule i = Some c ∧ c <> zero.
Proof.
  intros Hi. unfold char_at.
  apply Nat.ltb_lt in Hi as Hb. rewrite Hb. by apply get_below_strlen.
Qed.

Lemma char_at_defined rule i : i <= strlen rule -> is_Some (char_at rule i).
Proof.
  intros Hi. destruct (decide (i = strlen rule)) as [->|Hne].
  - rewrite char_at_terminator. eauto.
  - destruct (char_at_inside rule i) as (c & -> & _); [lia | eauto].
Qed.

(** *** The inner loop over the alphabet *)

Lemma range_loop_no_fault alph inside lower sym u :
  range_loop alph inside lower sym (Some u) <> RangeFault.
Proof.
  revert inside. induction alph as [|a alph IH]; simpl; intros inside; [done|].
  destruct (_ && _); [done|]. destruct (a =? u); [done|]. apply IH.
Qed.

Lemma range_loop_absent_lower alph lower sym u :
  lower ∉ alph -> range_loop alph false lower sym (Some u) = RangeLeave.
Proof.
  induction alph as [|a alph IH]; simpl; intros Hl; [done|].
  apply not_elem_of_cons in Hl as [Hne Hl].
  destruct (a =? lower) eqn:E; [apply eqb_true in E; congruence|].
  simpl. destruct (a =? u); [done|]. by apply IH.
Qed.

Lemma range_loop_inside_absent_upper alph lower sym u :
  u ∉ alph ->
  range_loop alph true lower sym (Some u) =
    if bool_decide (sym ∈ alph) then RangeReturn else RangeLeave.
Proof.
  induction alph as [|a alph IH]; cbn [range_loop]; intros Hu.
  - by rewrite bool_decide_eq_false_2 by apply not_elem_of_nil.
  - apply not_elem_of_cons in Hu as [Hne Hu].
    replace (if a =? lower then true else true) with true
      by by destruct (_ =? _).
    cbn [andb]. destruct (sym =? a) eqn:E.
    + apply eqb_true in E as ->.
      by rewrite bool_decide_eq_true_2 by apply list_elem_of_here.
    + apply eqb_false in E.
      destruct (a =? u) eqn:E'; [apply eqb_true in E'; congruence|].
      rewrite IH by done.
      destruct (decide (sym ∈ alph)) as [Hin|Hout].
      * rewrite !bool_decide_eq_true_2;
          [done | by apply list_elem_of_further | done].
      * rewrite !bool_decide_eq_false_2; [done | | done].
        intros [?|?]%elem_of_cons; done.
Qed.

Lemma range_loop_absent_upper alph lower sym u :
  u ∉ alph ->
  range_loop alph false lower sym (Some u) =
    if bool_decide (sym ∈ from_first lower alph) then RangeReturn
    else RangeLeave.
Proof.
  induction alph as [|a alph IH]; cbn [range_loop from_first]; intros Hu.
  - by rewrite bool_decide_eq_false_2 by apply not_elem_of_nil.
  - pose proof Hu as [Hne Hu']%not_elem_of_cons.
    destruct (a =? lower) eqn:E.
    + pose proof (range_loop_inside_absent_upper (a :: alph) lower sym u Hu)
        as R.
      cbn [range_loop] in R. by rewrite E in R.
    + cbn [andb]. destruct (a =? u) eqn:E'; [apply eqb_true in E'; congruence|].
      by apply IH.
Qed.

(** *** One iteration of the outer loop *)

Lemma iteration_range rule sym st u :
  char_at rule (idx st) = Some "-" ->
  char_at rule (S (idx st)) = Some u ->
  iteration rule sym st =
    match range_loop alphabet_chars false (previous_symbol st) sym (Some u) with
    | RangeReturn => Stop (Return (direct st))
    | _ => Next (Cursor (S (S (idx st))) (direct st) u)
    end.
Proof.
  intros Hc Hu. unfold iteration, fetch. rewrite Hc, Hu.
  change (list_ascii_of_string alphabet) with alphabet_chars.
  cbn [Ascii.eqb Bool.eqb andb].
  pose proof (range_loop_no_fault alphabet_chars false (previous_symbol st)
                sym u) as Hnf.
  by destruct (range_loop _ _ _ _ _).
Qed.

Lemma iteration_escape rule sym st e :
  char_at rule (idx st) = Some "\" ->
  char_at rule (S (idx st)) = Some e ->
  iteration rule sym st =
    if escape_switch e sym then Stop (Return (direct st))
    else Next (Cursor (S (S (idx st))) (direct st) e).
Proof.
  intros Hc He. unfold iteration, fetch. rewrite Hc, He. reflexivity.
Qed.

(** Inside the pattern an iteration either returns or moves [idx] forward by
    one or two positions; it never reads past the terminator. *)
Lemma iteration_progress rule sym st :
  idx st < strlen rule ->
  (∃ b, iteration rule sym st = Stop (Return b)) ∨
  (∃ st', iteration rule sym st = Next st' ∧
          idx st < idx st' <= S (S (idx st))).
Proof.
  intros Hi.
  destruct (char_at_inside rule (idx st) Hi) as (c & Hc & _).
  destruct (char_at_defined rule (S (idx st))) as [u Hu]; [lia|].
  destruct (decide (c = "-")) as [->|Hdash].
  { rewrite (iteration_range _ _ _ _ Hc Hu).
    destruct (range_loop _ _ _ _ _); [left|right..]; eexists; eauto;
      (split; [done | simpl; lia]). }
  destruct (decide (c = "\")) as [->|Hesc].
  { rewrite (iteration_escape _ _ _ _ Hc Hu).
    destruct (escape_switch u sym); [left|right]; eexists; eauto.
    split; [done | simpl; lia]. }
  unfold iteration, fetch. rewrite Hc.
  apply Ascii.eqb_neq in Hdash, Hesc. rewrite Hdash, Hesc.
  destruct (c =? "^"); [right; eexists; split; [done | simpl; lia]|].
  destruct (c =? "."); [left; eauto|].
  destruct (c =? sym); [left; eauto|].
  right; eexists; split; [done | simpl; lia].
Qed.

(** *** The outer loop *)

Lemma scan_returns rule sym fuel st :
  strlen rule <= fuel + idx st ->
  ∃ b, scan fuel rule (strlen rule) sym st = Return b.
Proof.
  revert st. induction fuel as [|fuel IH]; intros st Hf; cbn [scan].
  - rewrite (proj2 (Nat.ltb_ge _ _)) by lia. eauto.
  - destruct (idx st <? strlen rule)%nat eqn:Hlt; [|eauto].
    apply Nat.ltb_lt in Hlt.
    destruct (iteration_progress rule sym st Hlt)
      as [[b ->]|(st' & -> & Hadv)]; [eauto|].
    apply IH. lia.
Qed.

Lemma scan_fuel_irrelevant rule sym fuel1 fuel2 st :
  strlen rule <= fuel1 + idx st ->
  strlen rule <= fuel2 + idx st ->
  scan fuel1 rule (strlen rule) sym st = scan fuel2 rule (strlen rule) sym st.
Proof.
  revert fuel2 st.
  induction fuel1 as [|fuel1 IH]; intros fuel2 st H1 H2.
  - destruct fuel2; cbn [scan];
      rewrite (proj2 (Nat.ltb_ge _ _)) by lia; reflexivity.
  - destruct fuel2 as [|fuel2]; cbn [scan].
    + rewrite (proj2 (Nat.ltb_ge _ _)) by lia. reflexivity.
    + destruct (idx st <? strlen rule)%nat eqn:Hlt; [|reflexivity].
      apply Nat.ltb_lt in Hlt.
      destruct (iteration_progress rule sym st Hlt)
        as [[b ->]|(st' & -> & Hadv)]; [reflexivity|].
      apply IH; lia.
Qed.

Lemma scan_iterate rule sym fuel st st' :
  idx st < strlen rule ->
  iteration rule sym st = Next st' ->
  scan (S fuel) rule (strlen rule) sym st =
    scan fuel rule (strlen rule) sym st'.
Proof.
  intros Hlt Hit. cbn [scan].
  rewrite (proj2 (Nat.ltb_lt _ _)) by done. by rewrite Hit.
Qed.

Lemma scan_past_end rule sym fuel st :
  strlen rule <= idx st ->
  scan fuel rule (strlen rule) sym st = Return (negb (direct st)).
Proof.
  intros Hge. destruct fuel; cbn [scan];
    rewrite (proj2 (Nat.ltb_ge _ _)) by done; reflexivity.
Qed.

(** From any loop head, what remains of the loop computes the result of the
    call. *)
Lemma loop_head_scan rule sym st :
  loop_head rule sym st ->
  ∀ fuel, strlen rule <= fuel + idx st ->
    scan fuel rule (strlen rule) sym st = checkSymbol rule sym.
Proof.
  induction 1 as [|st st' Hhead IH Hlt Hit]; intros fuel Hf.
  - unfold checkSymbol. apply scan_fuel_irrelevant; simpl in *; lia.
  - destruct (iteration_progress rule sym st Hlt)
      as [[b Hb]|(st'' & Hn & Hadv)]; [congruence|].
    assert (st'' = st') as -> by congruence.
    rewrite <- (IH (S (S fuel))) by lia.
    rewrite (scan_iterate _ _ _ _ _ Hlt Hit).
    apply scan_fuel_irrelevant; lia.
Qed.

Lemma alphabet_no_terminator : zero ∉ alphabet_chars.
Proof. apply (bool_decide_unpack (_ ∉ _)). vm_compute. exact I. Qed.

Lemma from_first_absent x alph : x ∉ alph -> from_first x alph = [].
Proof.
  induction alph as [|a alph IH]; cbn [from_first]; intros Hx; [done|].
  apply not_elem_of_cons in Hx as [Hne Hx].
  destruct (a =? x) eqn:E; [apply eqb_true in E; congruence | by apply IH].
Qed.

(** *** Range segments with a bound outside the alphabet *)

(** C1, as stated, fails: a range segment whose upper bound is not in the
    alphabet can match.  In the pattern [a-] the loop reaches the '-' with
    [previous_symbol = 'a'], the upper bound is the terminator, and the
    segment returns [direct] for the symbol 'b'; accordingly
    [checkSymbol "a-" 'b'] is [true] while [checkSymbol "a" 'b'] is [false]. *)
Lemma range_absent_upper_bound_matches :
  ¬ (∀ rule sym st lower upper,
       loop_head rule sym st ->
       idx st < strlen rule ->
       char_at rule (idx st) = Some "-" ->
       previous_symbol st = lower ->
       char_at rule (S (idx st)) = Some upper ->
       lower ∉ alphabet_chars ∨ upper ∉ alphabet_chars ->
       iteration rule sym st =
         Next (Cursor (S (S (idx st))) (direct st) upper)) ∧
  checkSymbol "a-" "b" = Return true ∧
  checkSymbol "a" "b" = Return false.
Proof.
  split; [|split; reflexivity].
  intros claim.
  specialize (claim "a-"%string "b" (Cursor 1 true "a") "a" zero).
  assert (loop_head "a-" "b" (Cursor 1 true "a")) as Hhead.
  { apply (head_iterate _ _ (Cursor 0 true zero)).
    - apply head_entry.
    - simpl. lia.
    - reflexivity. }
  specialize (claim Hhead).
  assert (iteration "a-" "b" (Cursor 1 true "a") = Stop (Return true))
    as Hit by reflexivity.
  rewrite Hit in claim.
  discriminate claim; try reflexivity.
  - simpl. lia.
  - right. apply alphabet_no_terminator.
Qed.

(** C1, amended: at a range segment [X-Y] (the loop is at a '-', X is
    [previous_symbol], Y the character after the '-', which is the terminator
    for a trailing '-'):
    - if X is not in the alphabet, the segment gives no match: the iteration
      goes on behind Y, whatever the symbol;
    - if Y is not in the alphabet, the segment matches exactly the symbols of
      the alphabet from the first occurrence of X to the end of the alphabet;
    - after a trailing '-' Y is the terminator, which is not in the
      alphabet. *)
Theorem range_segment_absent_bound rule sym st lower upper :
  char_at rule (idx st) = Some "-" ->
  previous_symbol st = lower ->
  char_at rule (S (idx st)) = Some upper ->
  (lower ∉ alphabet_chars ->
     iteration rule sym st =
       Next (Cursor (S (S (idx st))) (direct st) upper)) ∧
  (upper ∉ alphabet_chars ->
     iteration rule sym st =
       if bool_decide (sym ∈ from_first lower alphabet_chars)
       then Stop (Return (direct st))
       else Next (Cursor (S (S (idx st))) (direct st) upper)) ∧
  (S (idx st) = strlen rule -> upper = zero ∧ upper ∉ alphabet_chars).
Proof.
  intros Hdash <- Hupper.
  rewrite (iteration_range _ _ _ _ Hdash Hupper).
  split; [|split].
  - intros Hl. by rewrite range_loop_absent_lower.
  - intros Hu. rewrite range_loop_absent_upper by done.
    by destruct (bool_decide _).
  - intros Hend. rewrite Hend, char_at_terminator in Hupper.
    injection Hupper as <-. split; [done | apply alphabet_no_terminator].
Qed.

Lemma range_segment_absent_bound_witness :
  iteration "!-z" "b" (Cursor 1 true "!") = Next (Cursor 3 true "z") ∧
  iteration "a-" "b" (Cursor 1 true "a") = Stop (Return true) ∧
  iteration "a-" "_" (Cursor 1 true "a") = Next (Cursor 3 true zero).
Proof.
  split; [|split].
  - apply (proj1 (range_segment_absent_bound "!-z" "b" (Cursor 1 true "!")
                    "!" "z" eq_refl eq_refl eq_refl)).
    apply (bool_decide_unpack (_ ∉ _)). vm_compute. exact I.
  - exact (proj1 (proj2 (range_segment_absent_bound "a-" "b"
                           (Cursor 1 true "a") "a" zero
                           eq_refl eq_refl eq_refl))
             alphabet_no_terminator).
  - exact (proj1 (proj2 (range_segment_absent_bound "a-" "_"
                           (Cursor 1 true "a") "a" zero
                           eq_refl eq_refl eq_refl))
             (proj2 (proj2 (proj2 (range_segment_absent_bound "a-" "_"
                                     (Cursor 1 true "a") "a" zero
                                     eq_refl eq_refl eq_refl))
                      eq_refl))).
Defined.

(** *** A trailing backslash *)

(** C6: no call of [checkSymbol] reads past the terminator of the pattern
    (every call returns a boolean, never [OutOfBounds]); when the loop
    arrives at a backslash that is the last character of the pattern, the
    character read behind it is the terminator, no case of the switch is
    selected, and the call returns [!direct], the value for "nothing
    matched"; for the pattern made of one backslash that value is [false]. *)
Theorem trailing_backslash_no_match :
  (∀ rule sym, ∃ b, checkSymbol rule sym = Return b) ∧
  (∀ rule sym st,
     loop_head rule sym st ->
     S (idx st) = strlen rule ->
     char_at rule (idx st) = Some "\" ->
     iteration rule sym st =
       Next (Cursor (S (S (idx st))) (direct st) zero) ∧
     checkSymbol rule sym = Return (negb (direct st))) ∧
  (∀ sym, checkSymbol "\" sym = Return false).
Proof.
  split; [|split].
  - intros rule sym. unfold checkSymbol. apply scan_returns. simpl. lia.
  - intros rule sym st Hhead Hlast Hc.
    assert (iteration rule sym st =
              Next (Cursor (S (S (idx st))) (direct st) zero)) as Hit.
    { rewrite (iteration_escape rule sym st zero Hc); [done|].
      rewrite Hlast. apply char_at_terminator. }
    split; [done|].
    rewrite <- (loop_head_scan rule sym st Hhead 1) by lia.
    assert (idx st < strlen rule) as Hlt by lia.
    rewrite (scan_iterate _ _ _ _ _ Hlt Hit).
    rewrite scan_past_end by (simpl; lia). reflexivity.
  - intros sym. reflexivity.
Qed.

Lemma trailing_backslash_no_match_witness :
  iteration "^ab\" "c" (Cursor 3 false "b") = Next (Cursor 5 false zero) ∧
  checkSymbol "^ab\" "c" = Return true.
Proof.
  apply (proj1 (proj2 trailing_backslash_no_match) "^ab\"%string "c"
           (Cursor 3 false "b")).
  - apply (head_iterate _ _ (Cursor 2 false "a")); [|simpl; lia|reflexivity].
    apply (head_iterate _ _ (Cursor 1 false "^")); [|simpl; lia|reflexivity].
    apply (head_iterate _ _ (Cursor 0 true zero)); [|simpl; lia|reflexivity].
    apply head_entry.
  - reflexivity.
  - reflexivity.
Defined.

(** *** The empty pattern and the bare negation *)

(** C10: the predicate of the empty pattern rejects every symbol, the
    predicate of the pattern [^] accepts every symbol. *)
Theorem empty_pattern_and_bare_negation (sym : ascii) :
  checkSymbol "" sym = Return false ∧ checkSymbol "^" sym = Return true.
Proof. split; reflexivity. Qed.

(** *** The patterns of the specification's examples *)

Example range_a_z_lowercase (sym : ascii) :
  sym ∈ list_ascii_of_string "abcdefghijklmnopqrstuvwxyz" ->
  checkSymbol "a-z" sym = Return true.
Proof.
  intros Hin. repeat (apply elem_of_cons in Hin as [->|Hin]; [reflexivity|]).
  by apply elem_of_nil in Hin.
Qed.

Example range_a_z_rejects :
  checkSymbol "a-z" "A" = Return false ∧ checkSymbol "a-z" "5" = Return false ∧
  checkSymbol "a-z" "_" = Return false.
Proof. repeat split. Qed.

Example dot_accepts (sym : ascii) : checkSymbol "." sym = Return true.
Proof. reflexivity. Qed.

Example negated_literal (sym : ascii) :
  checkSymbol "^a" sym = Return (negb ("a" =? sym)).
Proof. destruct sym as [[] [] [] [] [] [] [] []]; reflexivity. Qed.

End RuleProofs.

(** ** Properties of the transition engine *)

Module EngineProofs.
Import Engine.

Section Machine.

Context {State : Type} `{Countable State} {Condition : Type}.

Implicit Types (m : FSM State Condition) (edge e : Edge State Condition).
Implicit Types (v : list (Edge State Condition)) (cond : Condition).
Implicit Types (s key : State) (calls : list (call State Condition)).

(** *** Selecting an edge *)

Lemma first_accepting_first_in cond v e :
  first_accepting cond v = Some e ↔ first_in cond v e.
Proof.
  split.
  - induction v as [|a v IH]; cbn [first_accepting]; [done|].
    destruct (rule a cond) eqn:Ha.
    + intros [= ->]. exists [], v. by repeat split.
    + intros (before & after & -> & Hrej & Hacc)%IH.
      exists (a :: before), after. repeat split; [|done].
      by constructor.
  - intros (before & after & -> & Hrej & Hacc).
    induction Hrej as [|a before Ha _ IH]; cbn [first_accepting app].
    + by rewrite Hacc.
    + by rewrite Ha.
Qed.

Lemma first_accepting_none cond v :
  first_accepting cond v = None ↔ Forall (rejects cond) v.
Proof.
  induction v as [|a v IH]; cbn [first_accepting].
  - split; [by constructor | done].
  - destruct (rule a cond) eqn:Ha.
    + split; [done|]. intros [Hr _]%Forall_cons. unfold rejects in Hr.
      congruence.
    + rewrite IH. split; [by constructor | by intros [_ ?]%Forall_cons].
Qed.

Lemma local_edges_with_entry key (es : gmap State (list (Edge State Condition))) s :
  default [] (with_entry key es !! s) = default [] (es !! s).
Proof.
  unfold with_entry. destruct (es !! key) eqn:Hk; [done|].
  destruct (decide (key = s)) as [->|Hne].
  - by rewrite lookup_insert_eq, Hk.
  - by rewrite lookup_insert_ne.
Qed.

Lemma edges_subscript_eq key m :
  edges_subscript key m =
    (local_edges m key, set_edges (with_entry key (edges m)) m).
Proof.
  unfold edges_subscript, local_edges, with_entry.
  destruct (edges m !! key); [|done]. by destruct m.
Qed.

Lemma getEdge_eq cond m :
  getEdge cond m =
    (select_at cond m (current_state m),
     set_edges (with_entry (current_state m) (edges m)) m).
Proof.
  unfold getEdge, select_at. rewrite edges_subscript_eq.
  by destruct (first_accepting cond (local_edges m (current_state m))).
Qed.

Lemma select_at_ext cond m m' s :
  global_edges m' = global_edges m ->
  (∀ s', local_edges m' s' = local_edges m s') ->
  select_at cond m' s = select_at cond m s.
Proof. intros Hg Hl. unfold select_at. by rewrite Hg, Hl. Qed.

(** [process], with the two calls of [getEdge] resolved. *)
Lemma process_eq cond m :
  process cond m =
    let here := current_state m in
    let home := default_state m in
    let result now es :=
      mkFSM home now here (possible_states m) es (global_edges m)
        (state_names m) in
    match select_at cond m here with
    | None => (false, result here (with_entry here (edges m)))
    | Some first =>
        if decide (destination first = home) then
          let es := with_entry home (with_entry here (edges m)) in
          match select_at cond m home with
          | Some second =>
              (passed first || passed second, result (destination second) es)
          | None => (passed first, result home es)
          end
        else
          (passed first,
           result (destination first) (with_entry here (edges m)))
    end.
Proof.
  unfold process. rewrite getEdge_eq.
  rewrite (select_at_ext cond m); [| done | done].
  destruct (select_at cond m _) as [first|]; [|reflexivity].
  simpl.
  destruct (decide (destination first = default_state m)) as [Hd|Hd]; [|done].
  rewrite getEdge_eq.
  rewrite (select_at_ext cond m);
    [| done | intros s; apply local_edges_with_entry].
  simpl. rewrite Hd.
  destruct (select_at cond m (default_state m)); reflexivity.
Qed.

Lemma taken_eq cond m :
  taken cond m =
    match select_at cond m (current_state m) with
    | None => []
    | Some first =>
        first ::
          (if decide (destination first = default_state m) then
             match select_at cond m (default_state m) with
             | Some second => [second]
             | None => []
             end
           else [])
    end.
Proof.
  unfold taken. rewrite getEdge_eq.
  destruct (select_at cond m _) as [first|]; [|reflexivity].
  simpl.
  destruct (decide (destination first = default_state m)) as [Hd|Hd]; [|done].
  rewrite getEdge_eq.
  rewrite (select_at_ext cond m);
    [| done | intros s; apply local_edges_with_entry].
  simpl. by rewrite Hd.
Qed.

Lemma passed_not_silent e : passed e = negb (silent e).
Proof. unfold passed, silent. by rewrite negb_involutive. Qed.

(** *** What one call of [process] leaves alone *)

Lemma with_entry_subseteq key (es : gmap State (list (Edge State Condition))) :
  es ⊆ with_entry key es.
Proof.
  unfold with_entry. destruct (es !! key) eqn:Hk; [done|].
  by apply insert_subseteq.
Qed.

Lemma with_entry_lookup key (es : gmap State (list (Edge State Condition))) s v :
  with_entry key es !! s = Some v ->
  es !! s = Some v ∨ (es !! s = None ∧ v = [] ∧ s = key).
Proof.
  unfold with_entry. destruct (es !! key) eqn:Hk; [by left|].
  destruct (decide (key = s)) as [->|Hne].
  - rewrite lookup_insert_eq. intros [= <-]. by right.
  - rewrite lookup_insert_ne by done. by left.
Qed.

Lemma process_edges cond m :
  edges (process cond m).2 = with_entry (current_state m) (edges m) ∨
  edges (process cond m).2 =
    with_entry (default_state m) (with_entry (current_state m) (edges m)).
Proof.
  rewrite process_eq. cbn zeta.
  destruct (select_at cond m (current_state m)) as [first|]; [|by left].
  destruct (decide _); [|by left].
  destruct (select_at cond m (default_state m)); by right.
Qed.

Lemma process_same_graph cond m : same_graph m (process cond m).2.
Proof.
  assert (∀ s, local_edges (process cond m).2 s = local_edges m s) as Hl.
  { intros s. unfold local_edges.
    destruct (process_edges cond m) as [-> | ->];
      by rewrite ?local_edges_with_entry. }
  revert Hl. rewrite process_eq. cbn zeta.
  destruct (select_at cond m (current_state m)) as [first|];
    [destruct (decide _);
     [destruct (select_at cond m (default_state m))|]|];
    by repeat split.
Qed.

Lemma process_current cond m :
  current_state (process cond m).2 =
    List.last (destination <$> taken cond m) (current_state m).
Proof.
  rewrite process_eq, taken_eq. cbn zeta.
  destruct (select_at cond m (current_state m)) as [first|]; [|done].
  destruct (decide _) as [Hd|Hd]; [|done].
  by destruct (select_at cond m (default_state m)).
Qed.

Lemma process_previous cond m :
  previous_state (process cond m).2 = current_state m.
Proof.
  rewrite process_eq. cbn zeta.
  destruct (select_at cond m (current_state m)) as [first|]; [|done].
  destruct (decide _) as [Hd|Hd]; [|done].
  by destruct (select_at cond m (default_state m)).
Qed.

Lemma process_result cond m :
  (process cond m).1 = existsb (λ e, negb (silent e)) (taken cond m).
Proof.
  rewrite process_eq, taken_eq. cbn zeta.
  destruct (select_at cond m (current_state m)) as [first|]; [|done].
  destruct (decide _) as [Hd|Hd].
  - destruct (select_at cond m (default_state m)); cbn [fst existsb];
      by rewrite !passed_not_silent, ?orb_false_r.
  - cbn [fst existsb]. by rewrite passed_not_silent, orb_false_r.
Qed.

(** *** Silent and reported transitions *)

(** C2: the value returned by [process] is the disjunction, over the edges
    taken during the call, of "the edge does not carry SILENT": [false] when
    every edge taken is SILENT (in particular when none is taken), [true] when
    some edge taken is not.  The last part ties [taken] to the call: the
    current state after the call is the destination of the last edge taken. *)
Theorem process_reports_non_silent cond m :
  (process cond m).1 = existsb (λ e, negb (silent e)) (taken cond m) ∧
  (Forall (λ e, silent e = true) (taken cond m) ->
     (process cond m).1 = false) ∧
  (Exists (λ e, silent e = false) (taken cond m) ->
     (process cond m).1 = true) ∧
  current_state (process cond m).2 =
    List.last (destination <$> taken cond m) (current_state m).
Proof.
  split; [apply process_result|]. split; [|split; [|apply process_current]].
  - rewrite process_result.
    induction 1 as [|e l He _ IH]; cbn [existsb]; [done|].
    by rewrite He, IH.
  - rewrite process_result.
    induction 1 as [e l He|e l _ IH]; cbn [existsb].
    + by rewrite He.
    + by rewrite IH, orb_true_r.
Qed.

(** *** Re-entry through the default state *)

(** C3: with the machine in [from], [a] the first edge accepting [cond] under
    [from], leading to the default state, and [b] the first edge accepting
    [cond] under the default state, leading to [to], one call of [process]
    ends in [to] with [from] as previous state. *)
Theorem default_reentry cond m from to a b :
  current_state m = from ->
  first_in cond (local_edges m from) a ->
  destination a = default_state m ->
  first_in cond (local_edges m (default_state m)) b ->
  destination b = to ->
  currentState (process cond m).2 = to ∧
  previousState (process cond m).2 = from.
Proof.
  intros Hcur Ha Hda Hb Hdb. unfold previousState, currentState.
  rewrite process_previous. split; [|done].
  apply first_accepting_first_in in Ha, Hb.
  rewrite process_eq. cbn zeta. unfold select_at.
  rewrite Hcur, Ha. rewrite decide_True by done. by rewrite Hb.
Qed.

(** *** No accepting edge *)

(** C5: when no edge under the current state and no global edge accepts the
    symbol, [process] returns [false], the current state is the one before
    the call, and so is the previous state. *)
Theorem no_match_no_transition cond m :
  Forall (rejects cond) (local_edges m (current_state m)) ->
  Forall (rejects cond) (global_edges m) ->
  (process cond m).1 = false ∧
  currentState (process cond m).2 = currentState m ∧
  previousState (process cond m).2 = currentState m.
Proof.
  intros Hl Hg. apply first_accepting_none in Hl, Hg.
  unfold previousState, currentState. rewrite process_previous.
  rewrite process_eq. cbn zeta. unfold select_at. by rewrite Hl, Hg.
Qed.

(** *** The frame of [process] *)

(** C7, amended: a call of [process] leaves the default state, the possible
    states, the global edges, the state names and the edge list under every
    state as they were; the map of edge lists itself only grows: every entry
    is kept, and an entry that the call adds holds the empty list and sits
    under the state that was current at the call or under the default
    state. *)
Theorem process_frame cond m :
  same_graph m (process cond m).2 ∧
  edges m ⊆ edges (process cond m).2 ∧
  (∀ s v,
     edges (process cond m).2 !! s = Some v -> edges m !! s = None ->
     v = [] ∧ (s = current_state m ∨ s = default_state m)).
Proof.
  split; [apply process_same_graph|]. split.
  - destruct (process_edges cond m) as [-> | ->].
    + apply with_entry_subseteq.
    + etrans; apply with_entry_subseteq.
  - intros s v Hv Hnone.
    destruct (process_edges cond m) as [He | He]; rewrite He in Hv.
    + apply with_entry_lookup in Hv as [?|(_ & -> & ->)];
        [congruence | auto].
    + apply with_entry_lookup in Hv as [Hv|(_ & -> & ->)]; [|auto].
      apply with_entry_lookup in Hv as [?|(_ & -> & ->)];
        [congruence | auto].
Qed.

(** *** The overload with reference parameters *)

(** C8: [process(cond, ended_state, state_changed)] stores in
    [state_changed] the value that [process(cond)] returns and in
    [ended_state] the state that was current before the call, which is what
    [previousState()] reports after it; the machine is left as [process(cond)]
    leaves it. *)
Theorem process_into_reports_previous cond m :
  process_into cond m =
    (currentState m, (process cond m).1, (process cond m).2) ∧
  (process_into cond m).1.1 = previousState (process_into cond m).2.
Proof.
  unfold process_into, previousState, currentState.
  pose proof (process_previous cond m) as Hp.
  destruct (process cond m) as [changed m']. cbn [fst snd] in *.
  by rewrite Hp.
Qed.

(** *** Registration *)

Lemma createEdge_eq src dst r l f m :
  createEdge src dst r l f m =
    mkFSM (default_state m) (current_state m) (previous_state m)
      ({[dst]} ∪ ({[src]} ∪ possible_states m))
      (<[src := local_edges m src ++ [Edge_new src dst r l f]]> (edges m))
      (global_edges m) (state_names m).
Proof.
  unfold createEdge, local_edges. destruct (edges m !! src) eqn:Hsrc.
  - rewrite edges_subscript_eq. unfold local_edges, with_entry.
    rewrite Hsrc. reflexivity.
  - rewrite edges_subscript_eq. unfold local_edges, with_entry.
    cbn [edges set_edges]. rewrite lookup_insert_eq. cbn [default].
    unfold set_edges, set_possible_states.
    cbn [edges default_state current_state previous_state possible_states
         global_edges state_names].
    by rewrite insert_insert_eq.
Qed.

Lemma createEdge_local src dst r l f m s :
  local_edges (createEdge src dst r l f m) s =
    local_edges m s ++
      (if decide (src = s) then [Edge_new src dst r l f] else []).
Proof.
  rewrite createEdge_eq. unfold local_edges. cbn [edges].
  destruct (decide (src = s)) as [->|Hne].
  - by rewrite lookup_insert_eq.
  - rewrite lookup_insert_ne by done. by rewrite app_nil_r.
Qed.

Lemma perform_default m c : default_state (perform m c) = default_state m.
Proof.
  destruct c as [src dst r l f|dst r l f|st n|cond]; cbn [perform];
    [by rewrite createEdge_eq | done | done |].
  apply (process_same_graph cond m).
Qed.

Lemma perform_local m c s :
  local_edges (perform m c) s = local_edges m s ++ registered_local [c] s.
Proof.
  destruct c as [src dst r l f|dst r l f|st n|cond];
    cbn [perform registered_local].
  - rewrite createEdge_local. by destruct (decide _).
  - by rewrite app_nil_r.
  - by rewrite app_nil_r.
  - rewrite app_nil_r. apply (process_same_graph cond m).
Qed.

Lemma perform_global m c :
  global_edges (perform m c) =
    global_edges m ++ registered_global [c] (default_state m).
Proof.
  destruct c as [src dst r l f|dst r l f|st n|cond];
    cbn [perform registered_global].
  - by rewrite createEdge_eq, app_nil_r.
  - done.
  - by rewrite app_nil_r.
  - rewrite app_nil_r. apply (process_same_graph cond m).
Qed.

Lemma registered_local_cons c calls s :
  registered_local (c :: calls) s =
    registered_local [c] s ++ registered_local calls s.
Proof.
  destruct c as [src dst r l f|dst r l f|st n|cond]; cbn [registered_local];
    [by destruct (decide _) | done..].
Qed.

Lemma registered_global_cons c calls s :
  registered_global (c :: calls) s =
    registered_global [c] s ++ registered_global calls s.
Proof. by destruct c. Qed.

Lemma run_default calls m : default_state (run calls m) = default_state m.
Proof.
  revert m. induction calls as [|c calls IH]; intros m; [done|].
  cbn [run foldl]. change (foldl perform ?x calls) with (run calls x).
  by rewrite IH, perform_default.
Qed.

(** The edge list under a state is the list of the edges registered under
    it, in the order of the calls. *)
Lemma run_local calls m s :
  local_edges (run calls m) s = local_edges m s ++ registered_local calls s.
Proof.
  revert m. induction calls as [|c calls IH]; intros m.
  - by rewrite app_nil_r.
  - cbn [run foldl]. change (foldl perform ?x calls) with (run calls x).
    rewrite IH, perform_local, (registered_local_cons c calls).
    by rewrite app_assoc.
Qed.

Lemma run_global calls m :
  global_edges (run calls m) =
    global_edges m ++ registered_global calls (default_state m).
Proof.
  revert m. induction calls as [|c calls IH]; intros m.
  - by rewrite app_nil_r.
  - cbn [run foldl]. change (foldl perform ?x calls) with (run calls x).
    rewrite IH, perform_global, perform_default.
    rewrite (registered_global_cons c calls). by rewrite app_assoc.
Qed.

Lemma new_new_at (default : State) :
  new Condition default = new_at Condition default default.
Proof. unfold new, new_at. f_equal. set_solver. Qed.

(** *** Priority of the edges *)

Lemma select_at_first cond m s e :
  select_at cond m s = Some e ↔
    first_in cond (local_edges m s) e ∨
    (Forall (rejects cond) (local_edges m s) ∧
     first_in cond (global_edges m) e).
Proof.
  unfold select_at. rewrite <- !first_accepting_first_in.
  rewrite <- first_accepting_none.
  destruct (first_accepting cond (local_edges m s)); naive_solver.
Qed.

Lemma select_at_none cond m s :
  select_at cond m s = None ↔
    Forall (rejects cond) (local_edges m s) ∧
    Forall (rejects cond) (global_edges m).
Proof.
  unfold select_at. rewrite <- !first_accepting_none.
  destruct (first_accepting cond (local_edges m s)); naive_solver.
Qed.

(** C4: on a machine built by the constructor and any sequence of calls,
    [getEdge] selects the first edge, in the order of the [createEdge] calls,
    among the edges registered under the current state that accept the
    symbol; an edge registered by [createGlobalEdge] is selected only when no
    edge under the current state accepts, and then it is the first accepting
    one in the order of the [createGlobalEdge] calls; no edge is selected
    exactly when all of them reject.  [process] starts with this selection,
    so when an edge under the current state accepts, its destination is where
    the first transition of the call goes, whatever the global edges
    accept. *)
Theorem selection_order default start calls cond :
  let m := run calls (new_at Condition default start) in
  let locals := registered_local calls (current_state m) in
  let globals := registered_global calls default in
  (∀ e, (getEdge cond m).1 = Some e ↔
          first_in cond locals e ∨
          (Forall (rejects cond) locals ∧ first_in cond globals e)) ∧
  ((getEdge cond m).1 = None ↔
     Forall (rejects cond) locals ∧ Forall (rejects cond) globals) ∧
  head (taken cond m) = (getEdge cond m).1 ∧
  (∀ e, first_in cond locals e ->
        head (taken cond m) = Some e ∧
        (destination e ≠ default ->
         currentState (process cond m).2 = destination e)).
Proof.
  intros m locals globals.
  assert (local_edges m (current_state m) = locals) as Hl.
  { unfold m. by rewrite run_local. }
  assert (global_edges m = globals) as Hg.
  { unfold m. by rewrite run_global. }
  assert (default_state m = default) as Hd.
  { unfold m. by rewrite run_default. }
  assert (head (taken cond m) = (getEdge cond m).1) as Hhead.
  { rewrite taken_eq, getEdge_eq. cbn [fst].
    by destruct (select_at cond m (current_state m)). }
  rewrite getEdge_eq in *. cbn [fst] in *.
  split; [|split; [|split; [done|]]].
  - intros e. by rewrite select_at_first, Hl, Hg.
  - by rewrite select_at_none, Hl, Hg.
  - intros e He.
    assert (select_at cond m (current_state m) = Some e) as Hsel.
    { apply select_at_first. left. by rewrite Hl. }
    split; [by rewrite Hhead|].
    intros Hne. unfold currentState. rewrite process_eq. cbn zeta.
    rewrite Hsel, Hd. by rewrite decide_False.
Qed.

(** *** The possible states *)

Lemma perform_possible_mono m c :
  possible_states m ⊆ possible_states (perform m c).
Proof.
  destruct c as [src dst r l f|dst r l f|st n|cond]; cbn [perform].
  - rewrite createEdge_eq. cbn [possible_states]. set_solver.
  - cbn. set_solver.
  - done.
  - by destruct (process_same_graph cond m) as (_ & -> & _).
Qed.

Lemma perform_mentioned m c s :
  s ∈ mentioned c -> s ∈ possible_states (perform m c).
Proof.
  destruct c as [src dst r l f|dst r l f|st n|cond];
    cbn [perform mentioned].
  - rewrite createEdge_eq. cbn [possible_states]. set_solver.
  - cbn. set_solver.
  - by intros ?%elem_of_nil.
  - by intros ?%elem_of_nil.
Qed.

Lemma process_edges_lookup cond m s v :
  edges (process cond m).2 !! s = Some v ->
  edges m !! s = Some v ∨ v = [].
Proof.
  intros Hv. destruct (process_edges cond m) as [He | He]; rewrite He in Hv.
  - apply with_entry_lookup in Hv as [?|(_ & -> & _)]; auto.
  - apply with_entry_lookup in Hv as [Hv|(_ & -> & _)]; [|auto].
    apply with_entry_lookup in Hv as [?|(_ & -> & _)]; auto.
Qed.

Lemma perform_endpoints m c :
  endpoints_possible m -> endpoints_possible (perform m c).
Proof.
  intros (Hdef & Hloc & Hglob).
  pose proof (perform_possible_mono m c) as Hmono.
  split; [|split].
  - rewrite perform_default. set_solver.
  - intros s v e Hv He.
    destruct c as [src dst r l f|dst r l f|st n|cond]; cbn [perform] in *.
    + rewrite createEdge_eq in Hv, Hmono |- *.
      cbn [edges possible_states] in *.
      destruct (decide (src = s)) as [->|Hne].
      * rewrite lookup_insert_eq in Hv. injection Hv as <-.
        apply elem_of_app in He as [He|He].
        -- unfold local_edges in He.
           destruct (edges m !! s) as [v|] eqn:Hs;
             [|by apply elem_of_nil in He].
           destruct (Hloc s v e Hs He). set_solver.
        -- apply list_elem_of_singleton in He as ->. cbn. set_solver.
      * rewrite lookup_insert_ne in Hv by done.
        destruct (Hloc s v e Hv He). set_solver.
    + destruct (Hloc s v e Hv He). set_solver.
    + apply (Hloc s v e Hv He).
    + apply process_edges_lookup in Hv as [Hv | ->];
        [|by apply elem_of_nil in He].
      destruct (Hloc s v e Hv He). set_solver.
  - intros e He. rewrite perform_global in He.
    apply elem_of_app in He as [He|He].
    + destruct (Hglob e He). set_solver.
    + destruct c as [src dst r l f|dst r l f|st n|cond];
        cbn [registered_global] in He; try by apply elem_of_nil in He.
      apply list_elem_of_singleton in He as ->. cbn. set_solver.
Qed.

Lemma run_possible_mono calls m :
  possible_states m ⊆ possible_states (run calls m).
Proof.
  revert m. induction calls as [|c calls IH]; intros m; [done|].
  cbn [run foldl]. change (foldl perform ?x calls) with (run calls x).
  etrans; [apply (perform_possible_mono m c) | apply IH].
Qed.

Lemma run_mentioned calls m c s :
  c ∈ calls -> s ∈ mentioned c -> s ∈ possible_states (run calls m).
Proof.
  revert m. induction calls as [|c' calls IH]; intros m Hc Hs.
  - by apply elem_of_nil in Hc.
  - cbn [run foldl]. change (foldl perform ?x calls) with (run calls x).
    apply elem_of_cons in Hc as [->|Hc]; [|by apply IH].
    apply run_possible_mono. by apply perform_mentioned.
Qed.

Lemma run_endpoints calls m :
  endpoints_possible m -> endpoints_possible (run calls m).
Proof.
  revert m. induction calls as [|c calls IH]; intros m Hm; [done|].
  cbn [run foldl]. change (foldl perform ?x calls) with (run calls x).
  by apply IH, perform_endpoints.
Qed.

Lemma new_at_endpoints (default start : State) :
  endpoints_possible (new_at Condition default start).
Proof.
  split; [cbn; set_solver|]. split.
  - intros s v e Hv. cbn in Hv. by rewrite lookup_empty in Hv.
  - intros e He. cbn in He. by apply elem_of_nil in He.
Qed.

(** C9: after either constructor and any sequence of calls, the possible
    states contain the default state, the initial state, every state that a
    [createEdge] or [createGlobalEdge] call of the sequence names as source
    or destination, and the source and destination of every edge stored in
    the machine. *)
Theorem possible_states_cover default start calls :
  let covers m initial :=
    default ∈ possible_states m ∧
    initial ∈ possible_states m ∧
    (∀ c s, c ∈ calls -> s ∈ mentioned c -> s ∈ possible_states m) ∧
    endpoints_possible m in
  covers (run calls (new Condition default)) default ∧
  covers (run calls (new_at Condition default start)) start.
Proof.
  assert (∀ initial,
            default ∈ possible_states (run calls (new_at Condition default initial)) ∧
            initial ∈ possible_states (run calls (new_at Condition default initial)) ∧
            (∀ c s, c ∈ calls -> s ∈ mentioned c ->
               s ∈ possible_states (run calls (new_at Condition default initial))) ∧
            endpoints_possible (run calls (new_at Condition default initial)))
    as Hcover.
  { intros initial. split; [|split; [|split]].
    - apply run_possible_mono. cbn. set_solver.
    - apply run_possible_mono. cbn. set_solver.
    - intros c s. apply run_mentioned.
    - apply run_endpoints, new_at_endpoints. }
  cbn zeta. rewrite new_new_at. split; apply Hcover.
Qed.

End Machine.

(** *** The statements on the sample machine *)

Ltac by_evaluation := vm_compute; reflexivity.

Example sample_reentry :
  (process "x" sample).1 = true ∧
  currentState (process "x" sample).2 = 2 ∧
  previousState (process "x" sample).2 = 1.
Proof. repeat split; by_evaluation. Qed.

Example sample_ended_state_is_not_destination :
  (process_into "x" sample).1 = (1, true) ∧
  currentState (process_into "x" sample).2 = 2.
Proof. split; by_evaluation. Qed.

Lemma process_reports_non_silent_witness :
  (process "y" sample).1 = false ∧ (process "x" sample).1 = true.
Proof.
  split.
  - apply (proj1 (proj2 (process_reports_non_silent "y" sample))).
    vm_compute. constructor; [reflexivity | constructor].
  - apply (proj1 (proj2 (proj2 (process_reports_non_silent "x" sample)))).
    vm_compute. apply Exists_cons_tl, Exists_cons_hd. reflexivity.
Defined.

Lemma default_reentry_witness :
  currentState (process "x" sample).2 = 2 ∧
  previousState (process "x" sample).2 = 1.
Proof.
  apply (default_reentry "x" sample 1 2
           (Edge_new 1 0 (Ascii.eqb "x") "x" E_SILENT)
           (Edge_new 0 2 (Ascii.eqb "x") "x" E_NONE)).
  - by_evaluation.
  - exists [], [Edge_new 1 3 (Ascii.eqb "y") "y" E_SILENT].
    split; [by_evaluation | split; [constructor | by_evaluation]].
  - by_evaluation.
  - exists [], [].
    split; [by_evaluation | split; [constructor | by_evaluation]].
  - reflexivity.
Defined.

Lemma selection_order_witness :
  let m := run sample_calls (new_at ascii 0 1) in
  head (taken "y" m) = Some (Edge_new 1 3 (Ascii.eqb "y") "y" E_SILENT) ∧
  (3 ≠ 0 -> currentState (process "y" m).2 = 3).
Proof.
  apply (proj2 (proj2 (proj2 (selection_order 0 1 sample_calls "y")))
           (Edge_new 1 3 (Ascii.eqb "y") "y" E_SILENT)).
  exists [Edge_new 1 0 (Ascii.eqb "x") "x" E_SILENT], [].
  split; [by_evaluation | split; [|by_evaluation]].
  constructor; [by_evaluation | constructor].
Defined.

Lemma no_match_no_transition_witness :
  (process "q" sample).1 = false ∧
  currentState (process "q" sample).2 = currentState sample ∧
  previousState (process "q" sample).2 = currentState sample.
Proof.
  apply (no_match_no_transition "q" sample).
  - vm_compute. repeat constructor.
  - vm_compute. repeat constructor.
Defined.

(** C7, as stated, fails: on the machine [FSM(0)] without any edge a call of
    [process] evaluates [edges[current_state]], which inserts an empty vector
    under state 0 into the map of edge lists. *)
Lemma process_inserts_empty_entry :
  ¬ (∀ (m : FSM nat ascii) (cond : ascii),
       default_state (process cond m).2 = default_state m ∧
       possible_states (process cond m).2 = possible_states m ∧
       edges (process cond m).2 = edges m ∧
       global_edges (process cond m).2 = global_edges m ∧
       state_names (process cond m).2 = state_names m).
Proof.
  intros claim.
  destruct (claim (new ascii 0) "x") as (_ & _ & Hedges & _).
  apply (f_equal (λ es, es !! 0)) in Hedges.
  vm_compute in Hedges. discriminate Hedges.
Qed.

Lemma process_frame_witness :
  let m := (process "y" sample).2 in
  edges (process "q" m).2 !! 3 = Some [] ∧
  edges m !! 3 = None ∧
  ([] = @nil (Edge nat ascii) ∧
   (3 = current_state m ∨ 3 = default_state m)) ∧
  same_graph m (process "q" m).2.
Proof.
  intros m.
  assert (edges (process "q" m).2 !! 3 = Some []) as Hafter by by_evaluation.
  assert (edges m !! 3 = None) as Hbefore by by_evaluation.
  split; [exact Hafter|]. split; [exact Hbefore|]. split.
  - exact (proj2 (proj2 (process_frame "q" m)) 3 [] Hafter Hbefore).
  - exact (proj1 (process_frame "q" m)).
Defined.

Lemma possible_states_cover_witness :
  let m := run sample_calls (new_at ascii 0 1) in
  0 ∈ possible_states m ∧ 1 ∈ possible_states m ∧ 3 ∈ possible_states m.
Proof.
  destruct (proj2 (possible_states_cover (Condition := ascii) 0 1 sample_calls))
    as (Hdefault & Hstart & Hcalls & _).
  split; [exact Hdefault|]. split; [exact Hstart|].
  apply (Hcalls (CreateEdge 1 3 (Ascii.eqb "y") "y" E_SILENT)).
  - do 2 apply list_elem_of_further. apply list_elem_of_here.
  - apply list_elem_of_further, list_elem_of_here.
Defined.

End EngineProofs.

(** ** The rule matcher as a recursion over the pattern *)

Module MatcherProofs.
Import TextFSM RuleProofs.

(** *** The inner loop, in general *)

Lemma range_loop_between alph inside lower sym upper :
  range_loop alph inside lower sym (Some upper) =
    if bool_decide
         (sym ∈ if inside then up_to upper alph else between lower upper alph)
    then RangeReturn else RangeLeave.
Proof.
  unfold between. revert inside.
  induction alph as [|a alph IH]; intros inside;
    cbn [range_loop up_to from_first].
  - rewrite bool_decide_eq_false_2; [done|].
    destruct inside; apply not_elem_of_nil.
  - destruct (a =? upper) eqn:Eu, (a =? lower) eqn:El, inside,
      (sym =? a) eqn:Es;
      cbn [andb from_first]; rewrite ?El; cbn [from_first];
      try (apply eqb_true in Es as ->); try (apply eqb_false in Es);
      rewrite ?IH;
      repeat case_bool_decide; try done;
      set_solver.
Qed.

(** *** Dropping the first character of the buffer *)

Lemma strlen_cons c rule : c <> zero -> strlen (String c rule) = S (strlen rule).
Proof.
  intros Hc. cbn [strlen]. by rewrite (proj2 (Ascii.eqb_neq _ _) Hc).
Qed.

Lemma char_at_cons c rule i :
  c <> zero -> char_at (String c rule) (S i) = char_at rule i.
Proof.
  intros Hc. unfold char_at. rewrite strlen_cons by done. reflexivity.
Qed.

Lemma char_at_head c rule : c <> zero -> char_at (String c rule) 0 = Some c.
Proof.
  intros Hc. unfold char_at. rewrite strlen_cons by done. reflexivity.
Qed.

Lemma iteration_cons c rule sym i d prev :
  c <> zero ->
  iteration (String c rule) sym (Cursor (S i) d prev) =
    match iteration rule sym (Cursor i d prev) with
    | Next st => Next (Cursor (S (idx st)) (direct st) (previous_symbol st))
    | Stop o => Stop o
    end.
Proof.
  intros Hc. unfold iteration, fetch. cbn [idx direct previous_symbol].
  rewrite !char_at_cons by done.
  destruct (char_at rule i) as [a|]; [|done].
  destruct (a =? "^"); [done|]. destruct (a =? "."); [done|].
  destruct (a =? "-").
  { destruct (range_loop _ _ _ _ _); try done.
    by destruct (char_at rule (S i)). }
  destruct (a =? "\").
  { destruct (char_at rule (S i)) as [e|]; [|done].
    by destruct (escape_switch e sym). }
  by destruct (a =? sym).
Qed.

Lemma scan_cons c rule sym fuel i d prev :
  c <> zero ->
  scan fuel (String c rule) (S (strlen rule)) sym (Cursor (S i) d prev) =
    scan fuel rule (strlen rule) sym (Cursor i d prev).
Proof.
  intros Hc. revert i d prev.
  induction fuel as [|fuel IH]; intros i d prev; cbn [scan idx direct].
  - change (S i <? S (strlen rule))%nat with (i <? strlen rule)%nat.
    by destruct (i <? strlen rule)%nat.
  - change (S i <? S (strlen rule))%nat with (i <? strlen rule)%nat.
    destruct (i <? strlen rule)%nat; [|done].
    rewrite iteration_cons by done.
    destruct (iteration rule sym (Cursor i d prev)) as [[j d' p']|o]; [|done].
    apply IH.
Qed.

Lemma strlen_zero rule :
  strlen rule = 0 ->
  rule = EmptyString ∨ ∃ rest, rule = String zero rest.
Proof.
  destruct rule as [|c rest]; [by left|]. cbn [strlen].
  destruct (c =? zero) eqn:E; [|done].
  apply eqb_true in E as ->. right. eauto.
Qed.

(** *** The loop computes the recursion over the pattern *)

Lemma scan_matcher sym fuel :
  ∀ rule d prev,
    strlen rule <= fuel ->
    scan fuel rule (strlen rule) sym (Cursor 0 d prev) =
      Return (matcher d prev rule sym).
Proof.
  induction fuel as [|fuel IH]; intros rule d prev Hf.
  - assert (strlen rule = 0) as H0 by lia.
    rewrite scan_past_end by (simpl; lia).
    by destruct (strlen_zero rule H0) as [-> | [rest ->]].
  - destruct rule as [|c rest]; [done|].
    cbn [matcher]. destruct (c =? zero) eqn:Ez.
    { apply eqb_true in Ez as ->. reflexivity. }
    apply eqb_false in Ez.
    rewrite strlen_cons in * by done.
    cbn [scan idx]. change (0 <? S (strlen rest))%nat with true. cbv iota.
    destruct (c =? "-") eqn:Edash.
    { apply eqb_true in Edash as ->.
      assert (∃ u, char_at (String "-" rest) 1 = Some u ∧
                   u = match rest with
                       | EmptyString => zero
                       | String u _ => u
                       end) as (u & Hu & Hdef).
      { rewrite char_at_cons by done. unfold char_at.
        destruct rest as [|u rest']; [eauto|]. cbn [strlen].
        destruct (u =? zero) eqn:E; [apply eqb_true in E as ->|]; eauto. }
      rewrite (iteration_range (String "-" rest) sym (Cursor 0 d prev) u
                 (char_at_head _ _ Ez) Hu).
      cbn [previous_symbol direct idx].
      rewrite range_loop_between.
      change (if false then up_to u alphabet_chars
              else between prev u alphabet_chars)
        with (between prev u alphabet_chars).
      change ("-" =? "^") with false. change ("-" =? ".") with false.
      cbv iota.
      destruct rest as [|u' rest']; subst u.
      - destruct (bool_decide _); [done|]. by destruct fuel.
      - destruct (bool_decide _); [done|].
        destruct (u' =? zero) eqn:Eu.
        + apply eqb_true in Eu as ->. by destruct fuel.
        + apply eqb_false in Eu.
          rewrite scan_cons by done.
          rewrite strlen_cons in * by done. rewrite scan_cons by done.
          apply IH. lia. }
    destruct (c =? "\") eqn:Eesc.
    { apply eqb_true in Eesc as ->.
      assert (∃ e, char_at (String "\" rest) 1 = Some e ∧
                   e = match rest with
                       | EmptyString => zero
                       | String e _ => e
                       end) as (e & He & Hdef).
      { rewrite char_at_cons by done. unfold char_at.
        destruct rest as [|e rest']; [eauto|]. cbn [strlen].
        destruct (e =? zero) eqn:E; [apply eqb_true in E as ->|]; eauto. }
      rewrite (iteration_escape (String "\" rest) sym (Cursor 0 d prev) e
                 (char_at_head _ _ Ez) He).
      cbn [previous_symbol direct idx].
      change ("\" =? "^") with false. change ("\" =? ".") with false.
      change ("\" =? "-") with false. cbv iota.
      destruct rest as [|e' rest']; subst e.
      - by destruct fuel.
      - destruct (escape_switch e' sym); [done|].
        destruct (e' =? zero) eqn:Ee.
        + apply eqb_true in Ee as ->. by destruct fuel.
        + apply eqb_false in Ee.
          rewrite scan_cons by done.
          rewrite strlen_cons in * by done. rewrite scan_cons by done.
          apply IH. lia. }
    unfold iteration, fetch. rewrite char_at_head by done.
    cbn [idx direct previous_symbol]. rewrite Edash, Eesc.
    destruct (c =? "^").
    { rewrite scan_cons by done. apply IH. lia. }
    destruct (c =? "."); [done|].
    destruct (c =? sym); [done|].
    rewrite scan_cons by done. apply IH. lia.
Qed.

Ltac to_matcher :=
  unfold checkSymbol; cbv zeta; rewrite !scan_matcher by reflexivity.

(** X1: the loop over [idx] of [checkSymbol] computes the recursion [matcher]
    over the pattern, started with [direct = true] and
    [previous_symbol = 0]. *)
Theorem checkSymbol_matcher rule sym :
  checkSymbol rule sym = Return (matcher true zero rule sym).
Proof. unfold checkSymbol. by apply scan_matcher. Qed.


(** *** Range segments *)

Lemma elem_of_from_first x (l : list ascii) sym :
  sym ∈ from_first x l ↔
    ∃ i j, i <= j ∧ l !! i = Some x ∧ l !! j = Some sym.
Proof.
  induction l as [|a l IH]; cbn [from_first].
  - split; [by intros ?%elem_of_nil | by intros (i & j & _ & ? & _)].
  - destruct (a =? x) eqn:E.
    + apply eqb_true in E as ->. split.
      * intros (j & Hj)%list_elem_of_lookup_1. exists 0, j.
        split; [lia | done].
      * intros (_ & j & _ & _ & Hj). by eapply list_elem_of_lookup_2.
    + apply eqb_false in E. rewrite IH. split.
      * intros (i & j & Hij & Hi & Hj). exists (S i), (S j).
        split; [lia | done].
      * intros (i & j & Hij & Hi & Hj).
        destruct i as [|i]; [cbn in Hi; congruence|].
        destruct j as [|j]; [lia|]. exists i, j. split; [lia | done].
Qed.

Lemma lookup_up_to x (l : list ascii) j a :
  up_to x l !! j = Some a ↔
    l !! j = Some a ∧ ∀ k, k < j -> l !! k <> Some x.
Proof.
  revert j. induction l as [|b l IH]; intros j; cbn [up_to].
  - split; [done | by intros [? _]].
  - destruct (b =? x) eqn:E.
    + apply eqb_true in E as ->. destruct j as [|j]; cbn.
      * split; [intros ?; split; [done | lia] | by intros [? _]].
      * split; [done|]. intros [_ Hk]. by destruct (Hk 0); [lia|].
    + apply eqb_false in E. destruct j as [|j]; cbn.
      * split; [intros ?; split; [done | lia] | by intros [? _]].
      * rewrite IH. split; intros [Hj Hk]; (split; [done|]).
        -- intros [|k] Hlt; cbn; [congruence | apply Hk; lia].
        -- intros k Hlt. apply (Hk (S k)). lia.
Qed.

Lemma elem_of_between lower upper (l : list ascii) sym :
  sym ∈ between lower upper l ↔
    ∃ i j, i <= j ∧ l !! i = Some lower ∧ l !! j = Some sym ∧
           ∀ k, k < j -> l !! k <> Some upper.
Proof.
  unfold between. rewrite elem_of_from_first. split.
  - intros (i & j & Hij & Hi & Hj).
    apply lookup_up_to in Hi as [Hi _]. apply lookup_up_to in Hj as [Hj Hk].
    by exists i, j.
  - intros (i & j & Hij & Hi & Hj & Hk). exists i, j.
    split; [done|]. split; apply lookup_up_to; (split; [done|]).
    + intros k Hlt. apply Hk. lia.
    + done.
Qed.

Lemma between_absent_lower lower upper (l : list ascii) :
  lower ∉ l -> between lower upper l = [].
Proof.
  intros Hl. apply elem_of_nil_inv. intros sym Hin.
  apply elem_of_between in Hin as (i & j & _ & Hi & _).
  apply Hl. by eapply list_elem_of_lookup_2.
Qed.

(** X2: at a range segment [X-Y] (the loop is at a '-', X is
    [previous_symbol], Y the character behind the '-') the call returns
    [direct] exactly when the symbol stands in the alphabet at a position
    that is not before a position of X and not behind the first position
    of Y; otherwise the loop goes on behind Y.  Positions are those of the
    alphabet string, not character codes. *)
Theorem range_segment_positions rule sym st upper :
  char_at rule (idx st) = Some "-" ->
  char_at rule (S (idx st)) = Some upper ->
  (iteration rule sym st = Stop (Return (direct st)) ∨
   iteration rule sym st = Next (Cursor (S (S (idx st))) (direct st) upper)) ∧
  (iteration rule sym st = Stop (Return (direct st)) ↔
   ∃ i j, i <= j ∧
     alphabet_chars !! i = Some (previous_symbol st) ∧
     alphabet_chars !! j = Some sym ∧
     ∀ k, k < j -> alphabet_chars !! k <> Some upper).
Proof.
  intros Hdash Hupper.
  rewrite (iteration_range _ _ _ _ Hdash Hupper), range_loop_between.
  rewrite <- elem_of_between.
  change (if false then up_to upper alphabet_chars
          else between (previous_symbol st) upper alphabet_chars)
    with (between (previous_symbol st) upper alphabet_chars).
  case_bool_decide; split; auto; split; done.
Qed.

Lemma range_segment_positions_witness :
  iteration "a-c" "b" (Cursor 1 true "a") = Stop (Return true).
Proof.
  apply (proj2 (range_segment_positions "a-c" "b" (Cursor 1 true "a") "c"
                  eq_refl eq_refl)).
  exists 0, 1. split; [lia|]. split; [reflexivity|]. split; [reflexivity|].
  intros k Hk. assert (k = 0) as -> by lia. discriminate.
Defined.

Lemma special_false c :
  special c = false ->
  (c =? "^") = false ∧ (c =? ".") = false ∧ (c =? "-") = false ∧
  (c =? "\") = false.
Proof.
  unfold special. destruct (c =? "^"), (c =? "."), (c =? "-"), (c =? "\");
    cbn; intros; done.
Qed.

(** X3: the pattern [X-Y], for a lower bound X that is no special character
    and any upper bound Y, accepts X itself (by the literal test that comes
    before the range) and the symbols of the alphabet between X and Y, and
    nothing else; with the bounds in the wrong order it accepts X only. *)
Theorem range_pattern X Y sym :
  X <> zero -> special X = false -> Y <> zero ->
  checkSymbol (String X (String "-" (String Y ""))) sym =
    Return (bool_decide (sym = X ∨ sym ∈ between X Y alphabet_chars)).
Proof.
  intros HX Hs HY. to_matcher. cbn [matcher].
  destruct (special_false X Hs) as (-> & -> & -> & ->).
  rewrite (proj2 (Ascii.eqb_neq _ _) HX), (proj2 (Ascii.eqb_neq _ _) HY).
  change ("-" =? zero) with false. change ("-" =? "^") with false.
  change ("-" =? ".") with false. change ("-" =? "-") with true. cbv iota.
  destruct (X =? sym) eqn:E.
  - apply eqb_true in E as ->. by rewrite bool_decide_eq_true_2 by by left.
  - apply eqb_false in E. cbn [negb].
    destruct (decide (sym ∈ between X Y alphabet_chars)) as [Hin|Hout].
    + by rewrite !bool_decide_eq_true_2 by auto.
    + rewrite (bool_decide_eq_false_2 (sym ∈ _)) by done.
      rewrite bool_decide_eq_false_2; [done|]. by intros [->|?].
Qed.

Lemma range_pattern_witness :
  checkSymbol "z-a" "z" = Return true ∧ checkSymbol "z-a" "a" = Return false.
Proof.
  split.
  - exact (range_pattern "z" "a" "z" ltac:(discriminate) eq_refl
             ltac:(discriminate)).
  - exact (range_pattern "z" "a" "a" ltac:(discriminate) eq_refl
             ltac:(discriminate)).
Defined.

(** *** Literal patterns, negation, dot *)

Lemma matcher_literal sym p :
  literal p = true ->
  ∀ d prev,
    matcher d prev p sym =
      if bool_decide (sym ∈ list_ascii_of_string p) then d else negb d.
Proof.
  induction p as [|c p IH]; cbn [literal matcher list_ascii_of_string];
    intros Hp d prev.
  - by rewrite bool_decide_eq_false_2 by apply not_elem_of_nil.
  - apply andb_true_iff in Hp as [[Hz Hs]%andb_true_iff Hp].
    apply negb_true_iff in Hz, Hs. rewrite Hz.
    destruct (special_false c Hs) as (-> & -> & -> & ->).
    destruct (c =? sym) eqn:E.
    + apply eqb_true in E as ->.
      by rewrite bool_decide_eq_true_2 by apply list_elem_of_here.
    + apply eqb_false in E. rewrite IH by done.
      destruct (decide (sym ∈ list_ascii_of_string p)) as [Hin|Hout].
      * rewrite !bool_decide_eq_true_2;
          [done | by apply list_elem_of_further | done].
      * rewrite !bool_decide_eq_false_2; [done | | done].
        by intros [?|?]%elem_of_cons.
Qed.

(** X4: a pattern without special characters is the set of its characters:
    it accepts exactly the symbols that occur in it, and with a '^' in front
    exactly the symbols that do not. *)
Theorem literal_pattern p sym :
  literal p = true ->
  checkSymbol p sym = Return (bool_decide (sym ∈ list_ascii_of_string p)) ∧
  checkSymbol (String "^" p) sym =
    Return (negb (bool_decide (sym ∈ list_ascii_of_string p))).
Proof.
  intros Hp. to_matcher. cbn [matcher].
  change ("^" =? zero) with false. change ("^" =? "^") with true. cbv iota.
  rewrite !matcher_literal by done. by destruct (bool_decide _).
Qed.

Lemma literal_pattern_witness :
  checkSymbol "abc" "b" =
    Return (bool_decide ("b" ∈ list_ascii_of_string "abc")) ∧
  checkSymbol "^abc" "b" =
    Return (negb (bool_decide ("b" ∈ list_ascii_of_string "abc"))).
Proof. exact (literal_pattern "abc" "b" eq_refl). Defined.

Lemma matcher_dot sym p rest :
  literal p = true ->
  ∀ d prev, matcher d prev (p +:+ String "." rest) sym = d.
Proof.
  induction p as [|c p IH]; cbn [literal]; intros Hp d prev; [done|].
  change (matcher d prev (String c (p +:+ String "." rest)) sym = d).
  cbn [matcher].
  apply andb_true_iff in Hp as [[Hz Hs]%andb_true_iff Hp].
  apply negb_true_iff in Hz, Hs. rewrite Hz.
  destruct (special_false c Hs) as (-> & -> & -> & ->).
  destruct (c =? sym); [done|]. by apply IH.
Qed.

(** X5: a '.' that follows literal characters decides the call: the pattern
    accepts every symbol, whatever comes behind the dot, and with a '^' in
    front it rejects every symbol. *)
Theorem dot_decides p rest sym :
  literal p = true ->
  checkSymbol (p +:+ String "." rest) sym = Return true ∧
  checkSymbol (String "^" (p +:+ String "." rest)) sym = Return false.
Proof.
  intros Hp. to_matcher. cbn [matcher].
  change ("^" =? zero) with false. change ("^" =? "^") with true. cbv iota.
  by rewrite !matcher_dot.
Qed.

Lemma dot_decides_witness :
  checkSymbol ("ab" +:+ String "." "c-\") "z" = Return true ∧
  checkSymbol (String "^" ("ab" +:+ String "." "c-\")) "z" = Return false.
Proof. exact (dot_decides "ab" "c-\" "z" eq_refl). Defined.

Lemma between_same_or_absent prev prev' u (l : list ascii) :
  prev = prev' ∨ ((prev ∉ l) ∧ (prev' ∉ l)) ->
  between prev u l = between prev' u l.
Proof.
  intros [->|[Hp Hp']]; [done|].
  by rewrite !between_absent_lower.
Qed.

Lemma matcher_flip sym n :
  ∀ rule,
    String.length rule <= n ->
    "^" ∉ list_ascii_of_string rule ->
    ∀ d prev prev',
      prev = prev' ∨ ((prev ∉ alphabet_chars) ∧ (prev' ∉ alphabet_chars)) ->
      matcher (negb d) prev rule sym = negb (matcher d prev' rule sym).
Proof.
  induction n as [|n IH]; intros rule Hn Hcaret d prev prev' Hprev.
  { destruct rule; [done | cbn in Hn; lia]. }
  destruct rule as [|c rest]; [done|].
  cbn [list_ascii_of_string] in Hcaret.
  apply not_elem_of_cons in Hcaret as [Hc Hrest].
  cbn [String.length] in Hn. cbn [matcher].
  destruct (c =? zero); [done|].
  destruct (c =? "^") eqn:E; [apply eqb_true in E; congruence|].
  destruct (c =? "."); [done|].
  destruct (c =? "-").
  { rewrite (between_same_or_absent prev prev') by done.
    destruct rest as [|u rest'].
    - by destruct (bool_decide _).
    - rewrite (between_same_or_absent prev prev') by done.
      destruct (bool_decide _); [done|].
      destruct (u =? zero); [done|].
      cbn [list_ascii_of_string] in Hrest.
      apply not_elem_of_cons in Hrest as [_ Hrest].
      cbn [String.length] in Hn. apply IH; [lia | done | by left]. }
  destruct (c =? "\").
  { destruct rest as [|e rest']; [done|].
    destruct (escape_switch e sym); [done|].
    destruct (e =? zero); [done|].
    cbn [list_ascii_of_string] in Hrest.
    apply not_elem_of_cons in Hrest as [_ Hrest].
    cbn [String.length] in Hn. apply IH; [lia | done | by left]. }
  destruct (c =? sym); [done|].
  apply IH; [lia | done | by left].
Qed.

(** X6: for a pattern without '^', putting a '^' in front negates the
    answer for every symbol, whatever ranges, escapes and dots the pattern
    holds. *)
Theorem negation_prefix rule sym :
  "^" ∉ list_ascii_of_string rule ->
  checkSymbol (String "^" rule) sym = negate (checkSymbol rule sym).
Proof.
  intros Hcaret. to_matcher. cbn [matcher negate].
  change ("^" =? zero) with false. change ("^" =? "^") with true. cbv iota.
  f_equal.
  apply (matcher_flip sym (String.length rule) rule (le_n _) Hcaret true).
  right. split; [|apply alphabet_no_terminator].
  apply (bool_decide_unpack (_ ∉ _)). vm_compute. exact I.
Qed.

Lemma negation_prefix_witness :
  checkSymbol "^a-c\d." "b" = negate (checkSymbol "a-c\d." "b").
Proof.
  apply (negation_prefix "a-c\d." "b").
  apply (bool_decide_unpack (_ ∉ _)). vm_compute. exact I.
Defined.

(** *** Nothing behind the terminator counts *)

Lemma matcher_truncate sym q n :
  ∀ p, String.length p <= n ->
    ∀ d prev, matcher d prev (p +:+ String zero q) sym = matcher d prev p sym.
Proof.
  induction n as [|n IH]; intros p Hn d prev.
  { destruct p; [done | cbn in Hn; lia]. }
  destruct p as [|c rest]; [done|].
  cbn [String.length] in Hn.
  change (matcher d prev (String c (rest +:+ String zero q)) sym =
          matcher d prev (String c rest) sym).
  cbn [matcher].
  destruct (c =? zero); [done|].
  destruct (c =? "^"); [apply IH; lia|].
  destruct (c =? "."); [done|].
  destruct (c =? "-").
  { destruct rest as [|u rest'].
    - change ("" +:+ String zero q) with (String zero q).
      cbv iota. by destruct (bool_decide _).
    - change (String u rest' +:+ String zero q)
        with (String u (rest' +:+ String zero q)).
      cbv iota. destruct (bool_decide _); [done|].
      destruct (u =? zero); [done|].
      cbn [String.length] in Hn. apply IH. lia. }
  destruct (c =? "\").
  { destruct rest as [|e rest'].
    - change ("" +:+ String zero q) with (String zero q). reflexivity.
    - change (String e rest' +:+ String zero q)
        with (String e (rest' +:+ String zero q)).
      cbv iota. destruct (escape_switch e sym); [done|].
      destruct (e =? zero); [done|].
      cbn [String.length] in Hn. apply IH. lia. }
  destruct (c =? sym); [done|]. apply IH. lia.
Qed.

(** X7: what stands behind a NUL in the buffer has no influence: the call on
    the buffer [p], NUL, [q] answers as the call on [p], also when [p] ends
    in an open '-' or backslash. *)
Theorem terminator_cuts p q sym :
  checkSymbol (p +:+ String zero q) sym = checkSymbol p sym.
Proof.
  to_matcher. f_equal.
  by apply (matcher_truncate sym q (String.length p)).
Qed.

(** *** The classes and the alphabet *)

(** X8: the letters of [\w] and the digits of [\d] are together exactly the
    characters of the alphabet of the ranges, so the pattern [\w\d] accepts
    the alphabet and nothing else. *)
Theorem classes_cover_alphabet sym :
  isLetter sym || isNumber sym = bool_decide (sym ∈ alphabet_chars) ∧
  checkSymbol "\w\d" sym = Return (bool_decide (sym ∈ alphabet_chars)).
Proof.
  destruct sym as [[] [] [] [] [] [] [] []]; split; vm_compute; reflexivity.
Qed.

End MatcherProofs.

(** ** Further properties of the transition engine *)

Module EngineExtras.
Import Engine EngineProofs.

Section Machine.

Context {State : Type} `{Countable State} {Condition : Type}.

Implicit Types (m : FSM State Condition) (edge e : Edge State Condition).
Implicit Types (v : list (Edge State Condition)) (cond : Condition).
Implicit Types (s key : State) (calls : list (call State Condition)).

Lemma run_cons c calls m : run (c :: calls) m = run calls (perform m c).
Proof. reflexivity. Qed.

(** *** State names *)

Lemma stateName_perform m c s :
  stateName s (perform m c) =
    default (stateName s m) (last_name [c] s).
Proof.
  destruct c as [src dst r l f|dst r l f|st n|cond];
    cbn [perform last_name default].
  - unfold stateName. by rewrite createEdge_eq.
  - done.
  - unfold stateName, setStateName. cbn [state_names set_state_names].
    destruct (decide (st = s)) as [->|Hne]; cbn [default].
    + by rewrite lookup_insert_eq.
    + by rewrite lookup_insert_ne.
  - unfold stateName.
    by destruct (process_same_graph cond m) as (_ & _ & _ & -> & _).
Qed.

(** X9: after any sequence of calls, [stateName] gives for a state the name
    of the last [setStateName] call for that state; without such a call the
    name is the one from before, the empty string on a new machine.  No
    other call touches the names. *)
Theorem state_name_is_last_set calls m s (home start : State) :
  stateName s (run calls m) = default (stateName s m) (last_name calls s) ∧
  stateName s (new_at Condition home start) = EmptyString.
Proof.
  split; [|done]. revert m.
  induction calls as [|c calls IH]; intros m; [done|].
  rewrite run_cons, IH, stateName_perform.
  destruct c as [src dst r l f|dst r l f|st n|cond];
    cbn [last_name default]; try done.
  by destruct (last_name calls s).
Qed.

(** X10: naming a state has no effect on transitions: [process] after
    [setStateName] returns the same value and leaves the machine that
    [setStateName] after [process] leaves. *)
Theorem set_state_name_commutes state name cond m :
  process cond (setStateName state name m) =
    ((process cond m).1, setStateName state name (process cond m).2).
Proof.
  rewrite !process_eq. cbn zeta.
  change (select_at cond (setStateName state name m)) with (select_at cond m).
  cbn [current_state default_state setStateName set_state_names
       possible_states edges global_edges state_names].
  destruct (select_at cond m (current_state m)) as [first|]; [|done].
  destruct (decide _); [|done].
  by destruct (select_at cond m (default_state m)).
Qed.

(** *** What is stored for an edge *)

Lemma lor_land_same (f g : Z) : Z.land (Z.lor f g) g = g.
Proof.
  apply Z.bits_inj'. intros n _. rewrite Z.land_spec, Z.lor_spec.
  by destruct (Z.testbit f n), (Z.testbit g n).
Qed.

Lemma global_tag_silent (f : Z) :
  Z.land (Z.lor f E_GLOBAL) E_SILENT = Z.land f E_SILENT.
Proof.
  rewrite Z.land_lor_distr_l.
  change (Z.land E_GLOBAL E_SILENT) with 0%Z. apply Z.lor_0_r.
Qed.

Lemma registered_local_source calls s e :
  e ∈ registered_local calls s -> source e = s.
Proof.
  induction calls as [|c calls IH]; cbn [registered_local];
    [by intros ?%elem_of_nil|].
  destruct c as [src dst r l f|dst r l f|st n|cond]; try done.
  destruct (decide (src = s)) as [->|Hne]; [|done].
  by intros [->|?]%elem_of_cons; [|apply IH].
Qed.

Lemma registered_global_tagged calls default e :
  e ∈ registered_global calls default ->
  source e = default ∧ global e = true.
Proof.
  induction calls as [|c calls IH]; cbn [registered_global];
    [by intros ?%elem_of_nil|].
  destruct c as [src dst r l f|dst r l f|st n|cond]; try done.
  intros [->|?]%elem_of_cons; [|by apply IH].
  split; [done|]. unfold global. cbn [flags Edge_new].
  by rewrite lor_land_same.
Qed.

Lemma registered_global_kept calls default dst r l f :
  CreateGlobalEdge dst r l f ∈ calls ->
  ∃ e, e ∈ registered_global calls default ∧
       destination e = dst ∧ rule e = r ∧
       silent e = negb (Z.eqb (Z.land f E_SILENT) 0).
Proof.
  induction calls as [|c calls IH]; [by intros ?%elem_of_nil|].
  intros [<-|Hin]%elem_of_cons.
  - eexists. split; [apply list_elem_of_here|].
    repeat split. unfold silent. cbn [flags Edge_new].
    by rewrite global_tag_silent.
  - destruct (IH Hin) as (e & He & Hrest).
    exists e. split; [|done].
    destruct c as [src' dst' r' l' f'|dst' r' l' f'|st n|cond];
      cbn [registered_global]; try done.
    by apply list_elem_of_further.
Qed.

Lemma local_edges_new_at (home start : State) s :
  local_edges (new_at Condition home start) s = [].
Proof. unfold local_edges, new_at. cbn [edges]. by rewrite lookup_empty. Qed.

(** X11: on a machine built by the constructor and any sequence of calls,
    every edge stored under a state has that state as its source; every
    global edge has the default state as its source and carries GLOBAL; and
    every [createGlobalEdge] call of the sequence has left a global edge
    with its destination and predicate that is SILENT exactly when the
    caller's flags contain SILENT. *)
Theorem stored_edges_are_keyed default start calls :
  let m := run calls (new_at Condition default start) in
  (∀ s v e, edges m !! s = Some v -> e ∈ v -> source e = s) ∧
  (∀ e, e ∈ global_edges m -> source e = default ∧ global e = true) ∧
  (∀ dst r l f, CreateGlobalEdge dst r l f ∈ calls ->
     ∃ e, e ∈ global_edges m ∧ destination e = dst ∧ rule e = r ∧
          silent e = negb (Z.eqb (Z.land f E_SILENT) 0)).
Proof.
  intros m. split; [|split].
  - intros s v e Hv He.
    assert (local_edges m s = v) as Hl by (unfold local_edges; by rewrite Hv).
    unfold m in Hl. rewrite run_local, local_edges_new_at in Hl.
    cbn [app] in Hl. subst v. by eapply registered_local_source.
  - intros e He. unfold m in He. rewrite run_global in He. cbn in He.
    by apply registered_global_tagged in He.
  - intros dst r l f Hin. unfold m. rewrite run_global. cbn.
    by apply (registered_global_kept calls default dst r l f).
Qed.

(** *** The machine is always in a possible state *)

Lemma select_at_elem cond m s e :
  select_at cond m s = Some e ->
  (∃ v, edges m !! s = Some v ∧ e ∈ v) ∨ e ∈ global_edges m.
Proof.
  intros [(before & after & Hv & _)|[_ (before & after & Hv & _)]]%select_at_first.
  - left. unfold local_edges in Hv.
    destruct (edges m !! s) as [v|]; cbn in Hv.
    + exists v. split; [done|]. rewrite Hv. set_solver.
    + by destruct before.
  - right. rewrite Hv. set_solver.
Qed.

Lemma select_at_destination cond m s e :
  endpoints_possible m ->
  select_at cond m s = Some e ->
  destination e ∈ possible_states m.
Proof.
  intros (_ & Hloc & Hglob) [(v & Hv & He)|He]%select_at_elem.
  - by destruct (Hloc s v e Hv He).
  - by destruct (Hglob e He).
Qed.

Lemma process_stays_possible cond m :
  endpoints_possible m ->
  current_state m ∈ possible_states m ->
  current_state (process cond m).2 ∈ possible_states (process cond m).2 ∧
  previous_state (process cond m).2 ∈ possible_states (process cond m).2.
Proof.
  intros Hend Hcur. pose proof Hend as (Hdef & _).
  destruct (process_same_graph cond m) as (_ & -> & _).
  rewrite process_previous. split; [|done].
  rewrite process_eq. cbn zeta.
  destruct (select_at cond m (current_state m)) as [first|] eqn:H1; [|done].
  destruct (decide _) as [Hd|Hd].
  - destruct (select_at cond m (default_state m)) as [second|] eqn:H2;
      cbn [snd current_state]; [|done].
    by eapply select_at_destination.
  - cbn [snd current_state]. by eapply select_at_destination.
Qed.

(** X12: on a machine built by the constructor and any sequence of calls
    ([process] included), the current state and the previous state are
    possible states. *)
Theorem machine_stays_possible default start calls :
  let m := run calls (new_at Condition default start) in
  currentState m ∈ possible_states m ∧ previousState m ∈ possible_states m.
Proof.
  cbn zeta. unfold currentState, previousState.
  assert (∀ m,
            endpoints_possible m ->
            current_state m ∈ possible_states m ->
            previous_state m ∈ possible_states m ->
            current_state (run calls m) ∈ possible_states (run calls m) ∧
            previous_state (run calls m) ∈ possible_states (run calls m))
    as Hinv.
  { induction calls as [|c calls IH]; intros m Hend Hcur Hprev; [done|].
    rewrite run_cons. pose proof (perform_possible_mono m c) as Hmono.
    apply IH; [by apply perform_endpoints | |].
    - destruct c as [src dst r l f|dst r l f|st n|cond]; cbn [perform] in *.
      + rewrite createEdge_eq in *. cbn in *. set_solver.
      + cbn in *. set_solver.
      + done.
      + by apply process_stays_possible.
    - destruct c as [src dst r l f|dst r l f|st n|cond]; cbn [perform] in *.
      + rewrite createEdge_eq in *. cbn in *. set_solver.
      + cbn in *. set_solver.
      + done.
      + by apply process_stays_possible. }
  apply Hinv; [apply new_at_endpoints | cbn; set_solver..].
Qed.

(** *** Building the machine *)

(** X13: the calls that register edges or names never move the machine: a
    sequence without [process] leaves the current and the previous state as
    they were; and no sequence of calls changes the default state. *)
Theorem registration_keeps_position calls m :
  default_state (run calls m) = default_state m ∧
  (forallb registers calls = true ->
   currentState (run calls m) = currentState m ∧
   previousState (run calls m) = previousState m).
Proof.
  split; [apply run_default|]. unfold currentState, previousState.
  revert m. induction calls as [|c calls IH]; intros m Hreg; [done|].
  cbn [forallb] in Hreg. apply andb_true_iff in Hreg as [Hc Hreg].
  rewrite run_cons. destruct (IH (perform m c) Hreg) as [-> ->].
  destruct c as [src dst r l f|dst r l f|st n|cond]; cbn [perform];
    [by rewrite createEdge_eq | done | done | done].
Qed.

(** X14: nothing is ever removed or reordered: after any sequence of calls
    the possible states contain the former ones, and the edge list under
    every state and the global edge list are the former lists with the new
    edges appended. *)
Theorem calls_only_append calls m :
  possible_states m ⊆ possible_states (run calls m) ∧
  (∀ s, ∃ added, local_edges (run calls m) s = local_edges m s ++ added) ∧
  (∃ added, global_edges (run calls m) = global_edges m ++ added).
Proof.
  split; [apply run_possible_mono|]. split.
  - intros s. eexists. apply run_local.
  - eexists. apply run_global.
Qed.

(** X15: first match wins for good: once an edge is the first under a state
    to accept a symbol, [getEdge] selects it for that symbol in that state
    after any further calls, whatever edges they register. *)
Theorem first_match_is_stable cond m s e calls :
  first_in cond (local_edges m s) e ->
  current_state (run calls m) = s ->
  (getEdge cond (run calls m)).1 = Some e.
Proof.
  intros (before & after & Hv & Hrej & Hacc) Hcur.
  rewrite getEdge_eq. cbn [fst]. rewrite Hcur.
  apply select_at_first. left.
  exists before, (after ++ registered_local calls s).
  split; [|done]. rewrite run_local, Hv. by rewrite <- app_assoc.
Qed.

(** *** The default state is passed through *)

(** X16: if, with the machine in the default state, [getEdge] selects for a
    symbol an edge that leads elsewhere, then no call of [process] with that
    symbol, from whatever state, ends in the default state. *)
Theorem default_is_passed_through cond m e :
  (getEdge cond (changeState (default_state m) m)).1 = Some e ->
  destination e <> default_state m ->
  currentState (process cond m).2 <> default_state m.
Proof.
  rewrite getEdge_eq. cbn [fst].
  change (select_at cond (changeState (default_state m) m)
            (current_state (changeState (default_state m) m)))
    with (select_at cond m (default_state m)).
  intros Hsel Hne. unfold currentState. rewrite process_eq. cbn zeta.
  destruct (select_at cond m (current_state m)) as [first|] eqn:H1.
  - destruct (decide _) as [Hd|Hd]; [by rewrite Hsel | done].
  - cbn [snd current_state]. intros Heq. rewrite Heq in H1. congruence.
Qed.

End Machine.

(** *** Labels *)

(** X17: doubling the backslashes loses nothing: two labels with the same
    stored form are the same label. *)
Theorem escape_label_injective (l1 l2 : string) :
  escape_label l1 = escape_label l2 -> l1 = l2.
Proof.
  revert l2. induction l1 as [|c1 l1 IH]; intros [|c2 l2];
    cbn [escape_label].
  - done.
  - by destruct (c2 =? "\").
  - by destruct (c1 =? "\").
  - destruct (c1 =? "\") eqn:E1, (c2 =? "\") eqn:E2.
    + apply Ascii.eqb_eq in E1 as ->. apply Ascii.eqb_eq in E2 as ->.
      intros [= Heq]. by rewrite (IH _ Heq).
    + apply Ascii.eqb_eq in E1 as ->. apply Ascii.eqb_neq in E2.
      intros [= <- _]. done.
    + apply Ascii.eqb_neq in E1. apply Ascii.eqb_eq in E2 as ->.
      intros [= -> _]. done.
    + intros [= -> Heq]. by rewrite (IH _ Heq).
Qed.

(** *** The statements on the sample machine *)

Lemma stored_edges_are_keyed_witness :
  ∃ e, e ∈ global_edges (run sample_calls (new_at ascii 0 1)) ∧
       destination e = 2 ∧ rule e = Ascii.eqb "y" ∧
       silent e = negb (Z.eqb (Z.land E_NONE E_SILENT) 0).
Proof.
  apply (proj2 (proj2 (stored_edges_are_keyed 0 1 sample_calls))
           2 (Ascii.eqb "y") "y"%string E_NONE).
  do 3 apply list_elem_of_further. apply list_elem_of_here.
Defined.

Lemma registration_keeps_position_witness :
  currentState (run sample_calls (new_at ascii 0 1)) =
    currentState (new_at ascii 0 1) ∧
  previousState (run sample_calls (new_at ascii 0 1)) =
    previousState (new_at ascii 0 1).
Proof.
  apply (proj2 (registration_keeps_position sample_calls (new_at ascii 0 1))).
  reflexivity.
Defined.

Lemma first_match_is_stable_witness :
  (getEdge "x"
     (run [CreateEdge 1 2 (Ascii.eqb "x") "again" E_NONE;
           SetStateName 1 "one"] sample)).1 =
    Some (Edge_new 1 0 (Ascii.eqb "x") "x" E_SILENT).
Proof.
  apply (first_match_is_stable "x" sample 1).
  - exists [], [Edge_new 1 3 (Ascii.eqb "y") "y" E_SILENT].
    split; [by_evaluation | split; [constructor | by_evaluation]].
  - by_evaluation.
Defined.

Lemma default_is_passed_through_witness :
  currentState (process "x" sample).2 <> default_state sample.
Proof.
  apply (default_is_passed_through "x" sample
           (Edge_new 0 2 (Ascii.eqb "x") "x" E_NONE)).
  - by_evaluation.
  - vm_compute. discriminate.
Defined.

Lemma escape_label_injective_witness : "a\b"%string = "a\b"%string.
Proof. exact (escape_label_injective "a\b" "a\b" eq_refl). Defined.

End EngineExtras.

(** ** Machines driven by textual rules *)

Module TextMachineProofs.
Import TextFSM Engine EngineProofs RuleProofs MatcherProofs.

Section Wrappers.

Context {State : Type} `{Countable State}.

Lemma rule_function_returns rule sym :
  checkSymbol rule sym = Return (TextMachine.rule_function rule sym).
Proof.
  unfold TextMachine.rule_function.
  destruct (scan_returns rule sym (strlen rule) (Cursor 0 true zero))
    as [b Hb]; [simpl; lia|].
  unfold checkSymbol. by rewrite Hb.
Qed.

(** X18: a machine with one edge made by [TextFSM::createEdge] from the
    start state follows the rule: [process] moves to the destination exactly
    for the symbols on which [checkSymbol] returns [true] for the rule, and
    reports the move unless the flags contain SILENT; for the other symbols
    it stays and returns [false]. *)
Theorem text_edge_drives (home s t : State) rule flags sym :
  let m := TextMachine.createEdge s t rule flags (new_at ascii home s) in
  ∃ b, checkSymbol rule sym = Return b ∧
       currentState (process sym m).2 = (if b then t else s) ∧
       (process sym m).1 = b && Z.eqb (Z.land flags E_SILENT) 0.
Proof.
  intros m. exists (TextMachine.rule_function rule sym).
  split; [apply rule_function_returns|].
  set (e := Edge_new s t (TextMachine.rule_function rule)
              (TextMachine.c_str rule) flags).
  assert (∀ s', local_edges m s' = if decide (s = s') then [e] else [])
    as Hlocal.
  { intros s'. unfold m, TextMachine.createEdge.
    rewrite createEdge_local. unfold local_edges, new_at. cbn [edges].
    rewrite lookup_empty. reflexivity. }
  assert (global_edges m = []) as Hglobal.
  { unfold m, TextMachine.createEdge. by rewrite createEdge_eq. }
  assert (current_state m = s ∧ default_state m = home) as [Hcur Hdef].
  { unfold m, TextMachine.createEdge. by rewrite createEdge_eq. }
  assert (∀ s', select_at sym m s' =
                if decide (s = s')
                then (if TextMachine.rule_function rule sym then Some e
                      else None)
                else None) as Hsel.
  { intros s'. unfold select_at. rewrite Hlocal, Hglobal.
    destruct (decide (s = s')); [|done]. unfold e.
    cbn [first_accepting Engine.rule Edge_new].
    by destruct (TextMachine.rule_function rule sym). }
  unfold currentState. rewrite process_eq. cbn zeta.
  rewrite !Hsel, Hcur, Hdef. rewrite decide_True by done.
  destruct (TextMachine.rule_function rule sym) eqn:Hb; [|done].
  change (destination e) with t. cbn [andb].
  destruct (decide (t = home)) as [->|Hne].
  - destruct (decide (s = home)) as [->|Hne]; cbn [fst snd current_state];
      (split; [reflexivity|]).
    + rewrite orb_diag. reflexivity.
    + reflexivity.
  - cbn [fst snd current_state]. split; reflexivity.
Qed.

End Wrappers.

End TextMachineProofs.
